(** * InstaWebhooks: resumable feed synchronisation

    A shallow embedding of [src/instawebhooks/__main__.py]: the memory file
    that holds the last processed shortcode, the message formatter and the
    Discord sender, the resume walk [fetch_new_posts], one polling cycle
    [check_for_new_posts] and the polling loop [main].

    Conventions of the embedding.
    - A Python [str] is a [string] whose characters are code points below 256.
    - A [datetime] is its wall-clock reading in microseconds together with
      its UTC offset when it is timezone-aware.
    - The posts iterator handed out by instaloader is the list of the results
      of its successive [next] calls: a post, or an exception raised while
      the next page is fetched.
    - Everything the outside world decides during one polling cycle (the
      clock, the profile lookup, the webhook, the disk) is gathered in a
      [Round]; the process state that survives between cycles is a [World].
    - Logging and [sleep] change neither of them and are left out. *)

From Stdlib Require Import ZArith Lia.
From stdpp Require Import base strings list gmap.

Local Open Scope string_scope.
Local Open Scope list_scope.

(** ** Python runtime: exceptions, results, datetime, str methods *)

Module Py.

(** The exception classes that the program names or that its operations
    raise.  None of them is a subclass of another one in this list. *)
Inductive exn : Type :=
| ConnectionException
| QueryReturnedBadRequestException
| ProfileNotExistsException
| LoginRequiredException
| TypeError
| HTTPException
| KeyboardInterrupt.

#[global] Instance exn_eq_dec : EqDecision exn.
Proof. solve_decision. Defined.

Inductive result (A : Type) : Type :=
| Ok (a : A)
| Raise (e : exn).
Arguments Ok {A} a.
Arguments Raise {A} e.

(** [datetime]: [utcoffset = None] is a naive value. *)
Record datetime : Type := mk_datetime {
  wall : Z;
  utcoffset : option Z
}.

Definition naive (d : datetime) : Prop := utcoffset d = None.
Definition aware (d : datetime) : Prop := is_Some (utcoffset d).

(** [timedelta(days=d)] and [timedelta(seconds=s)], in microseconds. *)
Definition timedelta_days (d : Z) : Z := (d * 86400000000)%Z.
Definition timedelta_seconds (s : Z) : Z := (s * 1000000)%Z.

(** [datetime.now()]: the local wall clock, naive. *)
Definition datetime_now (clock : Z) : datetime :=
  {| wall := clock; utcoffset := None |}.

(** [datetime.now(timezone.utc)], as the tests build their dates. *)
Definition datetime_now_utc (clock : Z) : datetime :=
  {| wall := clock; utcoffset := Some 0%Z |}.

(** [d - delta] keeps the tzinfo of [d]. *)
Definition dt_sub (d : datetime) (delta : Z) : datetime :=
  {| wall := (wall d - delta)%Z; utcoffset := utcoffset d |}.

(** [a < b] on datetimes: two naive values compare their wall clocks, two
    aware values compare their UTC instants, and a naive value against an
    aware one raises [TypeError] (can't compare offset-naive and
    offset-aware datetimes). *)
Definition dt_lt (a b : datetime) : result bool :=
  match utcoffset a, utcoffset b with
  | None, None => Ok (wall a <? wall b)%Z
  | Some oa, Some ob => Ok (wall a - oa <? wall b - ob)%Z
  | _, _ => Raise TypeError
  end.

(** [a > b] is [b < a]. *)
Definition dt_gt (a b : datetime) : result bool := dt_lt b a.

(** Truth value of a [str]: non-empty. *)
Definition truthy (s : string) : bool :=
  match s with
  | EmptyString => false
  | String _ _ => true
  end.

(** [str.isspace] on one character below 256. *)
Definition is_space (c : Ascii.ascii) : bool :=
  let n := Ascii.N_of_ascii c in
  ((9 <=? n) && (n <=? 13) || (28 <=? n) && (n <=? 32)
   || (n =? 133) || (n =? 160))%N.

Fixpoint lstrip (s : string) : string :=
  match s with
  | EmptyString => EmptyString
  | String c s' => if is_space c then lstrip s' else s
  end.

Fixpoint rstrip (s : string) : string :=
  match s with
  | EmptyString => EmptyString
  | String c s' =>
      match rstrip s' with
      | EmptyString => if is_space c then EmptyString else String c EmptyString
      | r => String c r
      end
  end.

(** [s.strip()] *)
Definition strip (s : string) : string := rstrip (lstrip s).

(** [s.replace(old, new)] for a non-empty [old]: scan from the left, and
    at each position where [old] starts emit [new] and jump over [old].
    [skip] counts the characters of a match still to jump over. *)
Fixpoint replace_from (old new : string) (skip : nat) (s : string) : string :=
  match s with
  | EmptyString => EmptyString
  | String c s' =>
      match skip with
      | S k => replace_from old new k s'
      | O =>
          if String.prefix old s
          then new +:+ replace_from old new (String.length old - 1) s'
          else String c (replace_from old new 0 s')
      end
  end.

(** With an empty [old], Python puts [new] before every character and at
    the end. *)
Fixpoint interleave (new s : string) : string :=
  match s with
  | EmptyString => new
  | String c s' => new +:+ String c (interleave new s')
  end.

Definition replace (s old new : string) : string :=
  match old with
  | EmptyString => interleave new s
  | String _ _ => replace_from old new 0 s
  end.

(** [old in s] *)
Fixpoint occurs (old s : string) : bool :=
  match s with
  | EmptyString => String.prefix old EmptyString
  | String _ s' => String.prefix old s || occurs old s'
  end.

End Py.
Import Py.

(** ** Posts and the posts iterator *)

(** The attributes of an instaloader [Post] that the program reads. *)
Record Post : Type := mk_post {
  shortcode : string;
  date : datetime;
  is_pinned : bool;
  owner_username : string;
  owner_full_name : string;      (* post.owner_profile.full_name *)
  caption : option string;
  url : string
}.

(** One [next] on the posts iterator. *)
Inductive pull : Type :=
| Yield (post : Post)
| Throw (e : exn).

(** ** Resume walk *)

(** The [except] clause of [fetch_new_posts]. *)
Definition fetch_except (e : exn) : bool :=
  match e with
  | ConnectionException | QueryReturnedBadRequestException => true
  | _ => false
  end.

(** The [for post in posts] loop of [fetch_new_posts]; the second component
    is the exception that left the loop, if any. *)
Fixpoint fetch_loop (cutoff_date : datetime) (last_shortcode : string)
    (limit : Z) (posts : list pull) (posts_to_send : list Post) (count : Z)
    : list Post * option exn :=
  match posts with
  | [] => (posts_to_send, None)
  | Throw e :: _ => (posts_to_send, Some e)
  | Yield post :: rest =>
      match dt_lt (date post) cutoff_date with
      | Raise e => (posts_to_send, Some e)
      | Ok true => (posts_to_send, None)
      | Ok false =>
          if String.eqb (shortcode post) last_shortcode
          then (posts_to_send, None)
          else if is_pinned post
          then fetch_loop cutoff_date last_shortcode limit rest posts_to_send count
          else
            let posts_to_send := posts_to_send ++ [post] in
            let count := (count + 1)%Z in
            if (limit <=? count)%Z
            then (posts_to_send, None)
            else fetch_loop cutoff_date last_shortcode limit rest posts_to_send count
      end
  end.

(** [cutoff_date = datetime.now() - timedelta(days=7)] *)
Definition cutoff_date (clock : Z) : datetime :=
  dt_sub (datetime_now clock) (timedelta_days 7).

(** [fetch_new_posts(posts, last_shortcode, posts_to_send, limit)]: the list
    after the call, and the exception the call raises, if any. *)
Definition fetch_new_posts (clock : Z) (posts : list pull)
    (last_shortcode : string) (posts_to_send : list Post) (limit : Z)
    : list Post * option exn :=
  let '(posts_to_send, raised) :=
    fetch_loop (cutoff_date clock) last_shortcode limit posts posts_to_send 0 in
  match raised with
  | Some e => if fetch_except e then (posts_to_send, None) else (posts_to_send, Some e)
  | None => (posts_to_send, None)
  end.

(** The default of the [limit] parameter. *)
Definition default_limit : Z := 50.

(** ** Bootstrap walks (no checkpoint) *)

(** [for post in takewhile(lambda _: catchup > 0, posts)] with its body
    [posts_to_send.append(post); catchup -= 1].  [takewhile] first pulls the
    next post and only then asks the predicate, so one more [next] is made
    after the last accepted post. *)
Fixpoint catchup_loop (catchup : Z) (posts : list pull)
    (posts_to_send : list Post) : list Post * option exn :=
  match posts with
  | [] => (posts_to_send, None)
  | Throw e :: _ => (posts_to_send, Some e)
  | Yield post :: rest =>
      if (0 <? catchup)%Z
      then catchup_loop (catchup - 1) rest (posts_to_send ++ [post])
      else (posts_to_send, None)
  end.

(** [takewhile(lambda p: p.date > until, ...)], once [dropwhile] lets the
    posts through. *)
Fixpoint fresh_take (until : datetime) (posts : list pull)
    (posts_to_send : list Post) : list Post * option exn :=
  match posts with
  | [] => (posts_to_send, None)
  | Throw e :: _ => (posts_to_send, Some e)
  | Yield post :: rest =>
      match dt_gt (date post) until with
      | Raise e => (posts_to_send, Some e)
      | Ok true => fresh_take until rest (posts_to_send ++ [post])
      | Ok false => (posts_to_send, None)
      end
  end.

(** [takewhile(lambda p: p.date > until,
               dropwhile(lambda p: p.date > since, posts))] *)
Fixpoint fresh_loop (since until : datetime) (posts : list pull)
    (posts_to_send : list Post) : list Post * option exn :=
  match posts with
  | [] => (posts_to_send, None)
  | Throw e :: _ => (posts_to_send, Some e)
  | Yield post :: rest =>
      match dt_gt (date post) since with
      | Raise e => (posts_to_send, Some e)
      | Ok true => fresh_loop since until rest posts_to_send
      | Ok false =>
          match dt_gt (date post) until with
          | Raise e => (posts_to_send, Some e)
          | Ok true => fresh_take until rest (posts_to_send ++ [post])
          | Ok false => (posts_to_send, None)
          end
      end
  end.

(** ** Process state and the outside world *)

(** The parsed command line, read-only apart from [message_content]. *)
Record Args : Type := mk_args {
  instagram_username : string;
  discord_webhook_url : string;
  refresh_interval : Z;
  catchup : Z;
  no_embed : bool;
  once : bool
}.

(** One successful [webhook.send]. *)
Record Delivery : Type := mk_delivery {
  for_post : Post;
  content : string;
  with_embed : bool
}.

(** What persists from one polling cycle to the next: the mutable
    [args.message_content], the files under [.memory], and what the webhook
    has received so far. *)
Record World : Type := mk_world {
  message_content : string;
  files : gmap string string;
  outbox : list Delivery
}.

(** What the environment decides during one polling cycle. *)
Record Round : Type := mk_round {
  clock : Z;                                (* datetime.now() *)
  get_posts : result (list pull);           (* Profile.from_username(..).get_posts() *)
  create_embed_raises : Post -> option exn; (* the downloads of create_embed *)
  webhook_raises : Post -> option exn;      (* webhook.send *)
  read_fails : bool;                        (* IOError while reading the memory file *)
  write_fails : bool                        (* IOError while writing it *)
}.

(** ** Memory file *)

Definition get_memory_path (username : string) : string :=
  ".memory/last_post_" +:+ username +:+ ".txt".

Definition load_last_shortcode (round : Round) (w : World) (username : string)
    : option string :=
  match files w !! get_memory_path username with
  | Some text =>
      if read_fails round then None
      else
        let content := strip text in
        if truthy content then Some content else None
  | None => None
  end.

Definition save_last_shortcode (round : Round) (username shortcode : string)
    (w : World) : World :=
  if write_fails round then w
  else {| message_content := message_content w;
          files := <[get_memory_path username := shortcode]> (files w);
          outbox := outbox w |}.

(** ** Message formatting and sending *)

(** [post.caption or ""] *)
Definition caption_or_empty (post : Post) : string :=
  match caption post with
  | Some c => c
  | None => ""
  end.

(** The [placeholders] dict, in insertion order. *)
Definition placeholders (post : Post) : list (string * string) :=
  [ ("{post_url}", "https://www.instagram.com/p/" +:+ shortcode post +:+ "/");
    ("{owner_url}", "https://www.instagram.com/" +:+ owner_username post +:+ "/");
    ("{owner_name}", owner_full_name post);
    ("{owner_username}", owner_username post);
    ("{post_caption}", caption_or_empty post);
    ("{post_shortcode}", shortcode post);
    ("{post_image_url}", url post) ].

(** The [for placeholder, value in placeholders.items()] loop, on the value
    of [args.message_content]. *)
Fixpoint replace_all (pairs : list (string * string)) (text : string) : string :=
  match pairs with
  | [] => text
  | (placeholder, value) :: pairs' =>
      replace_all pairs' (replace text placeholder value)
  end.

(** [format_message(post)] assigns the result to [args.message_content]. *)
Definition format_message (post : Post) (w : World) : World :=
  {| message_content := replace_all (placeholders post) (message_content w);
     files := files w;
     outbox := outbox w |}.

Definition deliver (d : Delivery) (w : World) : World :=
  {| message_content := message_content w;
     files := files w;
     outbox := outbox w ++ [d] |}.

(** [send_to_discord(post)] *)
Definition send_to_discord (args : Args) (round : Round) (post : Post)
    (w : World) : World * option exn :=
  let w := if truthy (message_content w) then format_message post w else w in
  if no_embed args then
    match webhook_raises round post with
    | Some e => (w, Some e)
    | None => (deliver (mk_delivery post (message_content w) false) w, None)
    end
  else
    match create_embed_raises round post with
    | Some e => (w, Some e)
    | None =>
        match webhook_raises round post with
        | Some e => (w, Some e)
        | None => (deliver (mk_delivery post (message_content w) true) w, None)
        end
    end.

(** ** One polling cycle *)

(** The [except] clause around the profile lookup. *)
Definition profile_except (e : exn) : bool :=
  match e with
  | ConnectionException | QueryReturnedBadRequestException
  | ProfileNotExistsException | LoginRequiredException => true
  | _ => false
  end.

(** The part of [check_for_new_posts] that fills [posts_to_send]. *)
Definition collect (args : Args) (round : Round) (w : World)
    (posts : list pull) : list Post * option exn :=
  let resume :=
    match load_last_shortcode round w (instagram_username args) with
    | Some last_shortcode =>
        if truthy last_shortcode then Some last_shortcode else None
    | None => None
    end in
  match resume with
  | Some last_shortcode =>
      fetch_new_posts (clock round) posts last_shortcode [] default_limit
  | None =>
      let since := datetime_now (clock round) in
      let until := dt_sub (datetime_now (clock round))
                          (timedelta_seconds (refresh_interval args)) in
      if (0 <? catchup args)%Z
      then catchup_loop (catchup args) posts []
      else fresh_loop since until posts []
  end.

(** [for post in reversed(posts_to_send)]: send, then save the shortcode. *)
Fixpoint send_loop (args : Args) (round : Round) (batch : list Post)
    (w : World) : World * option exn :=
  match batch with
  | [] => (w, None)
  | post :: rest =>
      match send_to_discord args round post w with
      | (w, Some e) => (w, Some e)
      | (w, None) =>
          send_loop args round rest
            (save_last_shortcode round (instagram_username args) (shortcode post) w)
      end
  end.

(** [check_for_new_posts()]: the world after the cycle and the exception
    that leaves it, if any. *)
Definition check_for_new_posts (args : Args) (round : Round) (w : World)
    : World * option exn :=
  match get_posts round with
  | Raise e => if profile_except e then (w, None) else (w, Some e)
  | Ok posts =>
      match collect args round w posts with
      | (_, Some e) => (w, Some e)
      | ([], None) => (w, None)
      | (posts_to_send, None) => send_loop args round (rev posts_to_send) w
      end
  end.

(** ** The polling loop *)

(** How [main] stands after the supplied rounds. *)
Inductive Outcome : Type :=
| Polling                                   (* still in the [while True] loop *)
| Returned                                  (* run-once mode, normal return *)
| SystemExit (status : Z) (message : string)
| Traceback (e : exn).                      (* uncaught exception *)

Definition login_required_message : string :=
  "Not logged in. Please login with the --login flag.".

(** The [except] clauses of [main]; an exception they do not name ends the
    process with a traceback. *)
Definition main_except (e : exn) : Outcome :=
  match e with
  | LoginRequiredException => SystemExit 1 login_required_message
  | KeyboardInterrupt => SystemExit 0 "Interrupted by user."
  | _ => Traceback e
  end.

(** [main()], run against the rounds the environment supplies. *)
Fixpoint main (args : Args) (rounds : list Round) (w : World)
    : World * Outcome :=
  match rounds with
  | [] => (w, Polling)
  | round :: later =>
      match check_for_new_posts args round w with
      | (w, Some e) => (w, main_except e)
      | (w, None) => if once args then (w, Returned) else main args later w
      end
  end.

(** The exit status of the process, once it has one. *)
Definition exit_status (o : Outcome) : option Z :=
  match o with
  | Polling => None
  | Returned => Some 0%Z
  | SystemExit status _ => Some status
  | Traceback _ => Some 1%Z
  end.

(** ** Start-up guard *)

Definition empty_message_text : string :=
  "Please provide a message content with the --message-content flag.".

(** The module-level test [if args.no_embed and args.message_content == ""]:
    the [SystemExit] it raises, if any. *)
Definition startup_guard (args : Args) (message_content : string)
    : option Outcome :=
  if no_embed args && negb (truthy message_content)
  then Some (SystemExit 1 empty_message_text)
  else None.

(** ** Embeds *)

(** The character class [a-zA-Z0-9]. *)
Definition is_alnum (c : Ascii.ascii) : bool :=
  let n := Ascii.N_of_ascii c in
  ((48 <=? n) && (n <=? 57) || (65 <=? n) && (n <=? 90)
   || (97 <=? n) && (n <=? 122))%N.

(** The character class [a-zA-Z0-9_]. *)
Definition is_alnum_or_underscore (c : Ascii.ascii) : bool :=
  is_alnum c || (Ascii.N_of_ascii c =? 95)%N.

(** [\w] of a [str] pattern, on the code points below 256: the underscore
    and the characters for which [str.isalnum] holds. *)
Definition is_word (c : Ascii.ascii) : bool :=
  let n := Ascii.N_of_ascii c in
  (is_alnum_or_underscore c
   || (n =? 170) || (n =? 178) || (n =? 179) || (n =? 181) || (n =? 185)
   || (n =? 186) || (188 <=? n) && (n <=? 190) || (192 <=? n) && (n <=? 214)
   || (216 <=? n) && (n <=? 246) || (248 <=? n) && (n <=? 255))%N.

(** [\b] between the character [prev] and the text [s] that follows it. *)
Definition word_boundary (prev : Ascii.ascii) (s : string) : bool :=
  match s with
  | EmptyString => is_word prev
  | String c _ => negb (Bool.eqb (is_word prev) (is_word c))
  end.

(** The rest of [cls+\b] once a first character [prev] of the class has been
    matched: the greedy [+] takes further characters of the class first and
    gives them back one by one until [\b] holds.  The result is the text
    matched after [prev]. *)
Fixpoint more_then_boundary (cls : Ascii.ascii -> bool) (prev : Ascii.ascii)
    (s : string) : option string :=
  let here := if word_boundary prev s then Some EmptyString else None in
  match s with
  | EmptyString => here
  | String c s' =>
      if cls c then
        match more_then_boundary cls c s' with
        | Some name => Some (String c name)
        | None => here
        end
      else here
  end.

(** [(cls+\b)] matched at the start of [s]: the captured group. *)
Definition match_name (cls : Ascii.ascii -> bool) (s : string) : option string :=
  match s with
  | EmptyString => None
  | String c s' =>
      if cls c then
        match more_then_boundary cls c s' with
        | Some name => Some (String c name)
        | None => None
        end
      else None
  end.

(** [re.sub] for a pattern [sigil(cls+\b)]: at each position, from the left,
    a match is replaced by [link group] and the scan goes on after it.
    [skip] counts the characters of a match still to jump over. *)
Fixpoint sub_from (sigil : Ascii.ascii) (cls : Ascii.ascii -> bool)
    (link : string -> string) (skip : nat) (s : string) : string :=
  match s with
  | EmptyString => EmptyString
  | String c s' =>
      match skip with
      | S k => sub_from sigil cls link k s'
      | O =>
          if Ascii.eqb c sigil then
            match match_name cls s' with
            | Some name =>
                link name +:+ sub_from sigil cls link (String.length name) s'
            | None => String c (sub_from sigil cls link 0 s')
            end
          else String c (sub_from sigil cls link 0 s')
      end
  end.

(** The characters [#] and [@]. *)
Definition hash_sign : Ascii.ascii := Ascii.ascii_of_nat 35.
Definition at_sign : Ascii.ascii := Ascii.ascii_of_nat 64.

Definition hashtag_link (tag : string) : string :=
  "[#" +:+ tag +:+ "](https://www.instagram.com/explore/tags/" +:+ tag +:+ ")".

Definition mention_link (name : string) : string :=
  "[@" +:+ name +:+ "](https://www.instagram.com/" +:+ name +:+ ")".

(** [re.sub(r"#([a-zA-Z0-9]+\b)", r"[#\1](.../explore/tags/\1)", text)] *)
Definition link_hashtags (text : string) : string :=
  sub_from hash_sign is_alnum hashtag_link 0 text.

(** [re.sub(r"@([a-zA-Z0-9_]+\b)", r"[@\1](https://www.instagram.com/\1)", text)] *)
Definition link_mentions (text : string) : string :=
  sub_from at_sign is_alnum_or_underscore mention_link 0 text.

(** The [post_caption] of [create_embed]. *)
Definition post_caption (post : Post) : string :=
  link_mentions (link_hashtags (caption_or_empty post)).

(** The [Embed] that [create_embed] builds. *)
Record Embed : Type := mk_embed {
  color : Z;
  title : string;
  description : string;
  embed_url : string;
  timestamp : datetime;
  author_name : string;
  author_url : string;
  author_icon_url : string;
  footer_text : string;
  footer_icon_url : string;
  image_url : string
}.

(** [create_embed(post)], without the two downloads (whose failures are
    [create_embed_raises]). *)
Definition create_embed (post : Post) : Embed :=
  {| color := 13500529;
     title := owner_full_name post;
     description := post_caption post;
     embed_url := "https://www.instagram.com/p/" +:+ shortcode post +:+ "/";
     timestamp := date post;
     author_name := owner_username post;
     author_url := "https://www.instagram.com/" +:+ owner_username post +:+ "/";
     author_icon_url := "attachment://profile_pic.webp";
     footer_text := "Instagram";
     footer_icon_url :=
       "https://www.instagram.com/static/images/ico/favicon-192.png/68d99ba29cc8.png";
     image_url := "attachment://post_image.webp" |}.

(** ** Vocabulary of the statements *)

(** The verdicts of the cutoff test [post.date < cutoff_date]. *)
Definition older_than (cutoff : datetime) (post : Post) : Prop :=
  dt_lt (date post) cutoff = Ok true.

Definition within (cutoff : datetime) (post : Post) : Prop :=
  dt_lt (date post) cutoff = Ok false.

(** A post that the resume walk appends: inside the window, not the
    checkpoint, not pinned. *)
Definition accepted (cutoff : datetime) (last_shortcode : string)
    (post : Post) : Prop :=
  within cutoff post /\ shortcode post <> last_shortcode /\ is_pinned post = false.

(** A pinned post that the resume walk steps over. *)
Definition stepped_over (cutoff : datetime) (last_shortcode : string)
    (post : Post) : Prop :=
  within cutoff post /\ shortcode post <> last_shortcode /\ is_pinned post = true.

(** What the next [next] on the iterator raises. *)
Definition next_raises (posts : list pull) : option exn :=
  match posts with
  | Throw e :: _ => Some e
  | _ => None
  end.

(** Whether [send_to_discord post] fails, and with what. *)
Definition send_raises (args : Args) (round : Round) (post : Post) : option exn :=
  if no_embed args then webhook_raises round post
  else match create_embed_raises round post with
       | Some e => Some e
       | None => webhook_raises round post
       end.

(** The saved checkpoint of the monitored profile, as stored on disk. *)
Definition checkpoint (args : Args) (w : World) : option string :=
  files w !! get_memory_path (instagram_username args).

(** No placeholder of the template language occurs in [text]. *)
Definition placeholder_free (text : string) : Prop :=
  Forall (fun placeholder => occurs placeholder text = false)
    [ "{post_url}"; "{owner_url}"; "{owner_name}"; "{owner_username}";
      "{post_caption}"; "{post_shortcode}"; "{post_image_url}" ].

(** Where in a polling cycle a login-required condition can come up. *)
Inductive Stage : Type :=
| ProfileLookup       (* Profile.from_username(..).get_posts() *)
| FeedWalk            (* a [next] on the posts iterator *)
| Sending.            (* inside send_to_discord *)

Definition login_required_at (s : Stage) (args : Args) (round : Round)
    (w : World) : Prop :=
  match s with
  | ProfileLookup => get_posts round = Raise LoginRequiredException
  | FeedWalk =>
      exists posts,
        get_posts round = Ok posts /\
        snd (collect args round w posts) = Some LoginRequiredException
  | Sending =>
      exists posts batch,
        get_posts round = Ok posts /\
        collect args round w posts = (batch, None) /\
        snd (send_loop args round (rev batch) w) = Some LoginRequiredException
  end.

(** The reading of the specification in which a login-required condition
    ends the process wherever it comes up. *)
Definition login_required_always_fatal : Prop :=
  forall s args round later w,
    login_required_at s args round w ->
    snd (main args (round :: later) w) = SystemExit 1 login_required_message.

(** The reading of the specification in which a failed send is kept inside
    the cycle: the checkpoint stays where the sends before it left it, the
    cycle returns normally, and the loop goes on to the next cycle. *)
Definition send_failure_contained : Prop :=
  forall args round later w posts batch pre post rest e,
    get_posts round = Ok posts ->
    collect args round w posts = (batch, None) ->
    rev batch = pre ++ post :: rest ->
    Forall (fun p => send_raises args round p = None) pre ->
    send_raises args round post = Some e ->
    once args = false ->
    checkpoint args (fst (check_for_new_posts args round w)) =
      checkpoint args (fst (send_loop args round pre w)) /\
    snd (check_for_new_posts args round w) = None /\
    main args (round :: later) w =
      main args later (fst (check_for_new_posts args round w)).

(** The posts an iterator yields, in order. *)
Fixpoint yields (posts : list pull) : list Post :=
  match posts with
  | [] => []
  | Yield post :: rest => post :: yields rest
  | Throw _ :: rest => yields rest
  end.

(** A text made of white space only. *)
Fixpoint all_space (s : string) : bool :=
  match s with
  | EmptyString => true
  | String c s' => is_space c && all_space s'
  end.

(** The character [c] occurs in [s]. *)
Fixpoint has_char (c : Ascii.ascii) (s : string) : bool :=
  match s with
  | EmptyString => false
  | String d s' => Ascii.eqb d c || has_char c s'
  end.

(** Every character of [s] is in the class [cls]. *)
Fixpoint all_in (cls : Ascii.ascii -> bool) (s : string) : bool :=
  match s with
  | EmptyString => true
  | String c s' => cls c && all_in cls s'
  end.

(** The text [s] does not go on with a word character. *)
Definition ends_word (s : string) : bool :=
  match s with
  | EmptyString => true
  | String c _ => negb (is_word c)
  end.

(** The posts of a batch that are not pinned. *)
Definition unpinned (posts : list Post) : list Post :=
  List.filter (fun post => negb (is_pinned post)) posts.

(** A post that the cutoff test and the checkpoint test let through. *)
Definition passes (cutoff : datetime) (last_shortcode : string)
    (post : Post) : Prop :=
  within cutoff post /\ shortcode post <> last_shortcode.


(** The deliveries made since the outbox was [before]. *)
Definition new_deliveries (before after : list Delivery) : list Delivery :=
  drop (length before) after.

(** ** Sample data *)

Module Sample.

Definition day : Z := 86400000000.

(** The clock of the sample cycles, and naive dates [d] days before it. *)
Definition clock0 : Z := (20000 * day)%Z.

Definition days_ago (d : Z) : datetime := datetime_now (clock0 - d * day).
Definition days_ago_utc (d : Z) : datetime := datetime_now_utc (clock0 - d * day).

Definition post_at (code : string) (d : datetime) (pinned : bool) : Post :=
  {| shortcode := code; date := d; is_pinned := pinned;
     owner_username := "test_user"; owner_full_name := "Test User";
     caption := Some ("caption of " +:+ code);
     url := "https://cdn.example/" +:+ code +:+ ".jpg" |}.

Definition args0 : Args :=
  {| instagram_username := "test_user";
     discord_webhook_url := "https://discord.com/api/webhooks/123/abc";
     refresh_interval := 3600; catchup := 0;
     no_embed := false; once := false |}.

Definition world_with (template : string) (memory : option string) : World :=
  {| message_content := template;
     files := match memory with
              | Some text => {[ get_memory_path "test_user" := text ]}
              | None => ∅
              end;
     outbox := [] |}.

Definition round_with (feed : result (list pull))
    (webhook : Post -> option exn) : Round :=
  {| clock := clock0; get_posts := feed;
     create_embed_raises := fun _ => None;
     webhook_raises := webhook;
     read_fails := false; write_fails := false |}.

Definition always_ok : Post -> option exn := fun _ => None.

Definition fails_on (code : string) (e : exn) : Post -> option exn :=
  fun post => if String.eqb (shortcode post) code then Some e else None.

Definition A := post_at "A" (days_ago 1) false.
Definition B := post_at "B" (days_ago 2) false.
Definition C := post_at "C" (days_ago 3) false.
Definition CKPT := post_at "CKPT" (days_ago 4) false.
Definition OLD := post_at "OLD" (days_ago 10) false.
Definition PIN := post_at "PIN" (days_ago 5) true.
Definition PIN_OLD := post_at "PINOLD" (days_ago 30) true.

(** Fifty recent unpinned posts with the shortcodes "A", "B", ... *)
Definition fifty : list Post :=
  map (fun i => post_at (String (Ascii.ascii_of_nat (65 + i)) "") (days_ago 1) false)
      (seq 0 50).

End Sample.

(** ** Facts about the resume walk *)

Section ResumeWalk.

Variable cutoff : datetime.
Variable last_shortcode : string.
Variable limit : Z.

Local Abbreviation walk := (fetch_loop cutoff last_shortcode limit).

Lemma walk_accept_one post rest batch count :
  accepted cutoff last_shortcode post ->
  walk (Yield post :: rest) batch count =
    if (limit <=? count + 1)%Z then (batch ++ [post], None)
    else walk rest (batch ++ [post]) (count + 1)%Z.
Proof.
  intros (Hin & Hne & Hpin). unfold within in Hin. simpl.
  rewrite Hin, Hpin.
  apply String.eqb_neq in Hne. now rewrite Hne.
Qed.

Lemma walk_step_over post rest batch count :
  stepped_over cutoff last_shortcode post ->
  walk (Yield post :: rest) batch count = walk rest batch count.
Proof.
  intros (Hin & Hne & Hpin). unfold within in Hin. simpl.
  rewrite Hin, Hpin.
  apply String.eqb_neq in Hne. now rewrite Hne.
Qed.

(** A run of accepted posts that stays under the cap is appended whole. *)
Lemma walk_accept_run news : forall rest batch count,
  Forall (accepted cutoff last_shortcode) news ->
  (count + Z.of_nat (length news) < limit)%Z ->
  walk (map Yield news ++ rest) batch count =
    walk rest (batch ++ news) (count + Z.of_nat (length news))%Z.
Proof.
  induction news as [|post news IH]; intros rest batch count Hall Hlt.
  - simpl. now rewrite app_nil_r, Z.add_0_r.
  - apply Forall_cons in Hall as [Hpost Hnews].
    cbn [map app]. rewrite walk_accept_one by assumption.
    cbn [length] in Hlt |- *.
    destruct (Z.leb_spec limit (count + 1)) as [Hle|_]; [lia|].
    rewrite IH by (assumption || lia).
    rewrite <- app_assoc. cbn [app]. f_equal. lia.
Qed.

(** A run of accepted posts that fills the cap ends the walk: what comes
    after it is never pulled. *)
Lemma walk_accept_full news post rest batch count :
  Forall (accepted cutoff last_shortcode) (news ++ [post]) ->
  (count + Z.of_nat (length news) + 1 = limit)%Z ->
  walk (map Yield (news ++ [post]) ++ rest) batch count =
    (batch ++ news ++ [post], None).
Proof.
  intros Hall Hfull.
  apply Forall_app in Hall as [Hnews Hpost].
  apply Forall_inv in Hpost as Hp.
  rewrite map_app, <- app_assoc.
  rewrite walk_accept_run by (assumption || lia).
  cbn [map app]. rewrite walk_accept_one by assumption.
  destruct (Z.leb_spec limit (count + Z.of_nat (length news) + 1)) as [_|Hlt]; [|lia].
  now rewrite <- app_assoc.
Qed.

(** Only unpinned posts are appended, and the counter counts them. *)
Lemma walk_invariant posts : forall batch count,
  Forall (fun p => is_pinned p = false) batch ->
  Z.of_nat (length batch) = count ->
  let out := fst (walk posts batch count) in
  Forall (fun p => is_pinned p = false) out /\
  (Z.of_nat (length out) <= Z.max (Z.of_nat (length batch) + 1) limit)%Z.
Proof.
  induction posts as [|[post|e] rest IH]; intros batch count Hpins Hcount; cbn zeta.
  - simpl. split; [assumption|lia].
  - simpl.
    destruct (dt_lt (date post) cutoff) as [[|]|e]; simpl; try (split; [assumption|lia]).
    destruct (String.eqb (shortcode post) last_shortcode); simpl;
      try (split; [assumption|lia]).
    destruct (is_pinned post) eqn:Hpin.
    + apply IH; assumption.
    + assert (Hpins' : Forall (fun p => is_pinned p = false) (batch ++ [post])).
      { apply Forall_app. split; [assumption|]. constructor; [assumption|constructor]. }
      assert (Hlen : Z.of_nat (length (batch ++ [post])) = (count + 1)%Z).
      { rewrite length_app. simpl. lia. }
      destruct (Z.leb_spec limit (count + 1)) as [Hle|Hlt]; simpl.
      * split; [assumption|]. rewrite Hlen. lia.
      * specialize (IH (batch ++ [post]) (count + 1)%Z Hpins' Hlen).
        cbn zeta in IH. destruct IH as [IH1 IH2].
        split; [assumption|]. rewrite Hlen in IH2. lia.
  - simpl. split; [assumption|lia].
Qed.

(** Taking a stepped-over post out of the feed changes nothing. *)
Lemma walk_drop_stepped_over pre post rest : forall batch count,
  stepped_over cutoff last_shortcode post ->
  walk (pre ++ Yield post :: rest) batch count = walk (pre ++ rest) batch count.
Proof.
  induction pre as [|[p|e] pre IH]; intros batch count Hpost.
  - simpl app. now apply walk_step_over.
  - simpl.
    destruct (dt_lt (date p) cutoff) as [[|]|e]; try reflexivity.
    destruct (String.eqb (shortcode p) last_shortcode); try reflexivity.
    destruct (is_pinned p); [now apply IH|].
    destruct (limit <=? count + 1)%Z; [reflexivity|now apply IH].
  - reflexivity.
Qed.

(** An exception of the [except] clause, wherever it sits in the feed,
    leaves the loop with what walking the posts before it gathered. *)
Lemma walk_cut_at_throw pre e rest : forall batch count,
  fst (walk (pre ++ Throw e :: rest) batch count) = fst (walk pre batch count) /\
  (snd (walk (pre ++ Throw e :: rest) batch count) = snd (walk pre batch count) \/
   snd (walk pre batch count) = None /\
   snd (walk (pre ++ Throw e :: rest) batch count) = Some e).
Proof.
  induction pre as [|[p|e'] pre IH]; intros batch count.
  - simpl. auto.
  - simpl.
    destruct (dt_lt (date p) cutoff) as [[|]|e']; simpl; auto.
    destruct (String.eqb (shortcode p) last_shortcode); simpl; auto.
    destruct (is_pinned p); [apply IH|].
    destruct (limit <=? count + 1)%Z; simpl; auto.
  - simpl. auto.
Qed.

End ResumeWalk.

Lemma fetch_new_posts_unfold clock posts last_shortcode batch limit :
  fetch_new_posts clock posts last_shortcode batch limit =
    (fst (fetch_loop (cutoff_date clock) last_shortcode limit posts batch 0),
     match snd (fetch_loop (cutoff_date clock) last_shortcode limit posts batch 0) with
     | Some e => if fetch_except e then None else Some e
     | None => None
     end).
Proof.
  unfold fetch_new_posts.
  destruct (fetch_loop _ _ _ _ _ _) as [out [e|]]; simpl; [|reflexivity].
  now destruct (fetch_except e).
Qed.

(** The call never raises an exception of its own [except] clause. *)
Lemma fetch_new_posts_contains clock posts last_shortcode batch limit e :
  fetch_except e = true ->
  snd (fetch_new_posts clock posts last_shortcode batch limit) <> Some e.
Proof.
  intros He. rewrite fetch_new_posts_unfold. simpl.
  destruct (snd (fetch_loop _ _ _ _ _ _)) as [e'|]; [|discriminate].
  destruct (fetch_except e') eqn:He'; [discriminate|].
  intros [= ->]. congruence.
Qed.

(** ** Facts about sending and the cycle *)

Lemma load_last_shortcode_truthy round w username code :
  load_last_shortcode round w username = Some code -> truthy code = true.
Proof.
  unfold load_last_shortcode.
  destruct (files w !! get_memory_path username); [|discriminate].
  destruct (read_fails round); [discriminate|].
  destruct (truthy (strip s)) eqn:Ht; [|discriminate].
  now intros [= <-].
Qed.

Lemma collect_resume args round w posts code :
  load_last_shortcode round w (instagram_username args) = Some code ->
  collect args round w posts =
    fetch_new_posts (clock round) posts code [] default_limit.
Proof.
  intros Hload. unfold collect. rewrite Hload.
  now rewrite (load_last_shortcode_truthy _ _ _ _ Hload).
Qed.

Lemma collect_bootstrap args round w posts :
  load_last_shortcode round w (instagram_username args) = None ->
  collect args round w posts =
    if (0 <? catchup args)%Z
    then catchup_loop (catchup args) posts []
    else fresh_loop (datetime_now (clock round))
           (dt_sub (datetime_now (clock round))
                   (timedelta_seconds (refresh_interval args))) posts [].
Proof. intros Hload. unfold collect. now rewrite Hload. Qed.

Section Sending.

Variable args : Args.
Variable round : Round.

Lemma send_to_discord_snd post w :
  snd (send_to_discord args round post w) = send_raises args round post.
Proof.
  unfold send_to_discord, send_raises.
  destruct (no_embed args).
  - now destruct (webhook_raises round post).
  - destruct (create_embed_raises round post); [reflexivity|].
    now destruct (webhook_raises round post).
Qed.

Lemma send_to_discord_files post w :
  files (fst (send_to_discord args round post w)) = files w.
Proof.
  unfold send_to_discord.
  destruct (truthy (message_content w)), (no_embed args),
    (create_embed_raises round post), (webhook_raises round post); reflexivity.
Qed.

Lemma send_to_discord_failed post w e :
  send_raises args round post = Some e ->
  outbox (fst (send_to_discord args round post w)) = outbox w.
Proof.
  unfold send_to_discord, send_raises.
  destruct (truthy (message_content w)), (no_embed args),
    (create_embed_raises round post), (webhook_raises round post);
    intros; simplify_eq; reflexivity.
Qed.

Lemma send_to_discord_sent post w :
  send_raises args round post = None ->
  map for_post (outbox (fst (send_to_discord args round post w))) =
    map for_post (outbox w) ++ [post].
Proof.
  unfold send_to_discord, send_raises.
  destruct (truthy (message_content w)), (no_embed args),
    (create_embed_raises round post), (webhook_raises round post);
    intros; simplify_eq; simpl; now rewrite map_app.
Qed.

(** The send loop over [pre ++ rest] is the loop over [pre], then, when
    that one came through, the loop over [rest]. *)
Lemma send_loop_app pre rest : forall w,
  send_loop args round (pre ++ rest) w =
    match send_loop args round pre w with
    | (w1, Some e) => (w1, Some e)
    | (w1, None) => send_loop args round rest w1
    end.
Proof.
  induction pre as [|post pre IH]; intros w; [reflexivity|].
  simpl. destruct (send_to_discord args round post w) as [w1 [e|]]; [reflexivity|].
  apply IH.
Qed.

(** When every send succeeds the posts reach the webhook in the order of
    the batch, and the loop returns normally. *)
Lemma send_loop_delivers batch : forall w,
  Forall (fun post => send_raises args round post = None) batch ->
  snd (send_loop args round batch w) = None /\
  map for_post (outbox (fst (send_loop args round batch w))) =
    map for_post (outbox w) ++ batch.
Proof.
  induction batch as [|post batch IH]; intros w Hok.
  - simpl. now rewrite app_nil_r.
  - apply Forall_cons in Hok as [Hpost Hbatch]. simpl.
    pose proof (send_to_discord_snd post w) as Hsnd.
    pose proof (send_to_discord_sent post w Hpost) as Hout.
    destruct (send_to_discord args round post w) as [w1 r]. simpl in Hsnd, Hout.
    rewrite Hpost in Hsnd. subst r.
    destruct (IH (save_last_shortcode round (instagram_username args)
                    (shortcode post) w1) Hbatch) as [IH1 IH2].
    split; [assumption|]. rewrite IH2.
    replace (outbox (save_last_shortcode round (instagram_username args)
                       (shortcode post) w1)) with (outbox w1)
      by (unfold save_last_shortcode; now destruct (write_fails round)).
    rewrite Hout, <- app_assoc. reflexivity.
Qed.

(** A failing send ends the loop there: the memory file and the outbox are
    those left by the posts before it, and the exception leaves the loop. *)
Lemma send_loop_fails pre post rest e w :
  Forall (fun p => send_raises args round p = None) pre ->
  send_raises args round post = Some e ->
  snd (send_loop args round (pre ++ post :: rest) w) = Some e /\
  files (fst (send_loop args round (pre ++ post :: rest) w)) =
    files (fst (send_loop args round pre w)) /\
  outbox (fst (send_loop args round (pre ++ post :: rest) w)) =
    outbox (fst (send_loop args round pre w)).
Proof.
  intros Hpre Hpost. rewrite send_loop_app.
  destruct (send_loop_delivers pre w Hpre) as [Hnone _].
  destruct (send_loop args round pre w) as [w1 r]. simpl in Hnone. subst r.
  simpl.
  pose proof (send_to_discord_snd post w1) as Hsnd.
  pose proof (send_to_discord_files post w1) as Hfiles.
  pose proof (send_to_discord_failed post w1 e Hpost) as Hout.
  destruct (send_to_discord args round post w1) as [w2 r]. simpl in *.
  rewrite Hpost in Hsnd. subst r. simpl. auto.
Qed.

End Sending.

(** The cycle, once the profile lookup and the collection came through. *)
Lemma check_for_new_posts_sends args round w posts batch :
  get_posts round = Ok posts ->
  collect args round w posts = (batch, None) ->
  check_for_new_posts args round w = send_loop args round (rev batch) w.
Proof.
  intros Hget Hcollect. unfold check_for_new_posts. rewrite Hget, Hcollect.
  destruct batch as [|post batch]; reflexivity.
Qed.

Lemma main_step args round later w :
  main args (round :: later) w =
    match snd (check_for_new_posts args round w) with
    | Some e => (fst (check_for_new_posts args round w), main_except e)
    | None =>
        if once args then (fst (check_for_new_posts args round w), Returned)
        else main args later (fst (check_for_new_posts args round w))
    end.
Proof.
  simpl. now destruct (check_for_new_posts args round w) as [w1 [e|]].
Qed.

(** ** Resume mode *)

(** C1. In resume mode, when the checkpointed shortcode comes in the feed
    after [k <= 50] posts that are newer, not pinned and inside the 7-day
    window, the collection step returns exactly these [k] posts, and the
    cycle hands them to the webhook oldest first, that is in the reverse of
    the order in which the feed was walked.  The dates are those instaloader
    delivers (naive), so that the cutoff test has a verdict. *)
Theorem resume_accepts_newer_and_delivers_oldest_first
    (args : Args) (round : Round) (w : World) (last_shortcode : string)
    (news : list Post) (ckpt : Post) (older : list pull) :
  load_last_shortcode round w (instagram_username args) = Some last_shortcode ->
  get_posts round = Ok (map Yield news ++ Yield ckpt :: older) ->
  shortcode ckpt = last_shortcode ->
  naive (date ckpt) ->
  Forall (accepted (cutoff_date (clock round)) last_shortcode) news ->
  (length news <= 50)%nat ->
  Forall (fun post => send_raises args round post = None) news ->
  collect args round w (map Yield news ++ Yield ckpt :: older) = (news, None) /\
  exists w',
    check_for_new_posts args round w = (w', None) /\
    map for_post (outbox w') = map for_post (outbox w) ++ rev news.
Proof.
  intros Hload Hget Hck Hnaive Hnews Hlen Hsend.
  assert (Hcollect :
    collect args round w (map Yield news ++ Yield ckpt :: older) = (news, None)).
  { rewrite (collect_resume _ _ _ _ _ Hload), fetch_new_posts_unfold.
    unfold default_limit.
    destruct (Nat.eq_dec (length news) 50) as [Hfull|Hless].
    - destruct (exists_last (l := news)) as (front & post & ->).
      { intros ->. discriminate Hfull. }
      rewrite length_app in Hfull. simpl in Hfull.
      rewrite walk_accept_full by (assumption || lia). reflexivity.
    - rewrite walk_accept_run by (assumption || lia).
      assert (Hcmp : dt_lt (date ckpt) (cutoff_date (clock round)) =
                       Ok (wall (date ckpt) <? wall (cutoff_date (clock round)))%Z).
      { unfold dt_lt. unfold naive in Hnaive. now rewrite Hnaive. }
      cbn [fetch_loop]. rewrite Hcmp.
      destruct (wall (date ckpt) <? wall (cutoff_date (clock round)))%Z;
        [reflexivity|].
      apply String.eqb_eq in Hck. rewrite Hck. reflexivity. }
  split; [assumption|].
  rewrite (check_for_new_posts_sends _ _ _ _ _ Hget Hcollect).
  assert (Hrev : Forall (fun post => send_raises args round post = None) (rev news)).
  { now apply Forall_rev. }
  destruct (send_loop_delivers args round (rev news) w Hrev) as [Hnone Hout].
  destruct (send_loop args round (rev news) w) as [w' r]. simpl in Hnone, Hout.
  subst r. exists w'. auto.
Qed.

Lemma resume_accepts_newer_and_delivers_oldest_first_witness :
  let args := Sample.args0 in
  let feed := [Yield Sample.A; Yield Sample.B; Yield Sample.C;
               Yield Sample.CKPT; Yield Sample.OLD] in
  let round := Sample.round_with (Ok feed) Sample.always_ok in
  let w := Sample.world_with "New post: {post_url}" (Some "CKPT") in
  collect args round w feed = ([Sample.A; Sample.B; Sample.C], None) /\
  exists w',
    check_for_new_posts args round w = (w', None) /\
    map for_post (outbox w') = [Sample.C; Sample.B; Sample.A].
Proof.
  cbv zeta.
  apply (resume_accepts_newer_and_delivers_oldest_first
           Sample.args0
           (Sample.round_with
              (Ok [Yield Sample.A; Yield Sample.B; Yield Sample.C;
                   Yield Sample.CKPT; Yield Sample.OLD]) Sample.always_ok)
           (Sample.world_with "New post: {post_url}" (Some "CKPT"))
           "CKPT" [Sample.A; Sample.B; Sample.C] Sample.CKPT [Yield Sample.OLD]).
  - vm_compute. reflexivity.
  - reflexivity.
  - reflexivity.
  - reflexivity.
  - repeat constructor; discriminate.
  - simpl. lia.
  - repeat constructor.
Defined.

(** C3. In resume mode a pinned post that reaches the pin test is stepped
    over: it is neither appended to the batch nor counted, so the result is
    the one of the feed without it; no pinned post is ever in the batch; the
    posts appended are counted, the walk ends once 50 of them are in the
    batch, whatever follows in the feed, and the batch never has more than
    50 posts. *)
Theorem pinned_skipped_uncounted_and_batch_capped
    (clock : Z) (last_shortcode : string) (posts pre rest tail : list pull)
    (pinned : Post) (full : list Post) :
  stepped_over (cutoff_date clock) last_shortcode pinned ->
  Forall (accepted (cutoff_date clock) last_shortcode) full ->
  length full = 50%nat ->
  Forall (fun post => is_pinned post = false)
    (fst (fetch_new_posts clock posts last_shortcode [] default_limit)) /\
  (length (fst (fetch_new_posts clock posts last_shortcode [] default_limit)) <= 50)%nat /\
  fetch_new_posts clock (pre ++ Yield pinned :: rest) last_shortcode [] default_limit =
    fetch_new_posts clock (pre ++ rest) last_shortcode [] default_limit /\
  fetch_new_posts clock (map Yield full ++ tail) last_shortcode [] default_limit =
    (full, None).
Proof.
  intros Hpinned Hfull Hlen.
  destruct (walk_invariant (cutoff_date clock) last_shortcode default_limit
              posts [] 0%Z (List.Forall_nil _) eq_refl) as [Hpins Hbound].
  repeat split.
  - now rewrite fetch_new_posts_unfold.
  - rewrite fetch_new_posts_unfold. simpl fst.
    unfold default_limit in *. simpl length in Hbound. lia.
  - rewrite !fetch_new_posts_unfold.
    now rewrite walk_drop_stepped_over.
  - rewrite fetch_new_posts_unfold.
    destruct (exists_last (l := full)) as (front & post & ->).
    { intros ->. discriminate Hlen. }
    rewrite length_app in Hlen. simpl in Hlen.
    rewrite walk_accept_full by (assumption || (unfold default_limit; lia)).
    reflexivity.
Qed.

Lemma pinned_skipped_uncounted_and_batch_capped_witness :
  let posts := [Yield Sample.PIN; Yield Sample.A; Yield Sample.CKPT] in
  let pre := [Yield Sample.A] in
  let rest := [Yield Sample.B; Yield Sample.CKPT] in
  let tail := [Yield Sample.OLD] in
  Forall (fun post => is_pinned post = false)
    (fst (fetch_new_posts Sample.clock0 posts "CKPT" [] default_limit)) /\
  (length (fst (fetch_new_posts Sample.clock0 posts "CKPT" [] default_limit)) <= 50)%nat /\
  fetch_new_posts Sample.clock0 (pre ++ Yield Sample.PIN :: rest) "CKPT" [] default_limit =
    fetch_new_posts Sample.clock0 (pre ++ rest) "CKPT" [] default_limit /\
  fetch_new_posts Sample.clock0 (map Yield Sample.fifty ++ tail) "CKPT" [] default_limit =
    (Sample.fifty, None).
Proof.
  cbv zeta.
  apply (pinned_skipped_uncounted_and_batch_capped Sample.clock0 "CKPT"
           [Yield Sample.PIN; Yield Sample.A; Yield Sample.CKPT]
           [Yield Sample.A] [Yield Sample.B; Yield Sample.CKPT]
           [Yield Sample.OLD] Sample.PIN Sample.fifty).
  - repeat constructor; discriminate.
  - unfold Sample.fifty. simpl. repeat constructor; discriminate.
  - reflexivity.
Defined.

(** ** Transient fetch errors *)

(** C4. A [ConnectionException] or a [QueryReturnedBadRequestException]
    raised by the iterator in the middle of the resume walk ends the walk
    like the end of the feed: the batch is the one gathered from the posts
    before the error (a run of accepted posts is kept whole), and
    [fetch_new_posts] does not raise the error to its caller. *)
Theorem transient_error_truncates_walk
    (clock : Z) (last_shortcode : string) (limit : Z) (batch : list Post)
    (pre rest : list pull) (news : list Post) (e : exn) :
  fetch_except e = true ->
  Forall (accepted (cutoff_date clock) last_shortcode) news ->
  (length news < 50)%nat ->
  fetch_new_posts clock (pre ++ Throw e :: rest) last_shortcode batch limit =
    fetch_new_posts clock pre last_shortcode batch limit /\
  snd (fetch_new_posts clock (pre ++ Throw e :: rest) last_shortcode batch limit)
    <> Some e /\
  fetch_new_posts clock (map Yield news ++ Throw e :: rest) last_shortcode []
    default_limit = (news, None).
Proof.
  intros He Hnews Hlen. repeat split.
  - rewrite !fetch_new_posts_unfold.
    destruct (walk_cut_at_throw (cutoff_date clock) last_shortcode limit
                pre e rest batch 0%Z) as [Hfst [Hsnd|[Hnone Hsnd]]].
    + now rewrite Hfst, Hsnd.
    + now rewrite Hfst, Hsnd, Hnone, He.
  - now apply fetch_new_posts_contains.
  - rewrite fetch_new_posts_unfold.
    rewrite walk_accept_run by (assumption || (unfold default_limit; lia)).
    simpl. now rewrite He.
Qed.

Lemma transient_error_truncates_walk_witness :
  let feed := [Yield Sample.A; Yield Sample.B] in
  let rest := [Yield Sample.C; Yield Sample.CKPT] in
  fetch_new_posts Sample.clock0 (feed ++ Throw ConnectionException :: rest)
    "CKPT" [] 50 = fetch_new_posts Sample.clock0 feed "CKPT" [] 50 /\
  snd (fetch_new_posts Sample.clock0 (feed ++ Throw ConnectionException :: rest)
         "CKPT" [] 50) <> Some ConnectionException /\
  fetch_new_posts Sample.clock0
    (map Yield [Sample.A; Sample.B] ++ Throw ConnectionException :: rest)
    "CKPT" [] default_limit = ([Sample.A; Sample.B], None).
Proof.
  cbv zeta.
  apply (transient_error_truncates_walk Sample.clock0 "CKPT" 50 []
           [Yield Sample.A; Yield Sample.B] [Yield Sample.C; Yield Sample.CKPT]
           [Sample.A; Sample.B] ConnectionException).
  - reflexivity.
  - repeat constructor; discriminate.
  - simpl. lia.
Defined.

(** C10. In resume mode the cutoff test comes before the pin test: when the
    first post of the feed is older than 7 days the walk ends at once with
    an empty batch and the cycle sends nothing, also when that post is
    pinned and newer unpinned posts follow it. *)
Theorem cutoff_test_precedes_pin_skip
    (args : Args) (round : Round) (w : World) (last_shortcode : string)
    (first : Post) (rest : list pull) :
  load_last_shortcode round w (instagram_username args) = Some last_shortcode ->
  get_posts round = Ok (Yield first :: rest) ->
  older_than (cutoff_date (clock round)) first ->
  fetch_new_posts (clock round) (Yield first :: rest) last_shortcode []
    default_limit = ([], None) /\
  check_for_new_posts args round w = (w, None).
Proof.
  intros Hload Hget Hold.
  assert (Hfetch : fetch_new_posts (clock round) (Yield first :: rest)
                     last_shortcode [] default_limit = ([], None)).
  { unfold fetch_new_posts. simpl. unfold older_than in Hold. now rewrite Hold. }
  split; [assumption|].
  unfold check_for_new_posts.
  now rewrite Hget, (collect_resume _ _ _ _ _ Hload), Hfetch.
Qed.

Lemma cutoff_test_precedes_pin_skip_witness :
  let feed := [Yield Sample.PIN_OLD; Yield Sample.A; Yield Sample.B;
               Yield Sample.CKPT] in
  let round := Sample.round_with (Ok feed) Sample.always_ok in
  let w := Sample.world_with "New post: {post_url}" (Some "CKPT") in
  is_pinned Sample.PIN_OLD = true /\
  fetch_new_posts (clock round) feed "CKPT" [] default_limit = ([], None) /\
  check_for_new_posts Sample.args0 round w = (w, None).
Proof.
  cbv zeta. split; [reflexivity|].
  apply (cutoff_test_precedes_pin_skip Sample.args0
           (Sample.round_with
              (Ok [Yield Sample.PIN_OLD; Yield Sample.A; Yield Sample.B;
                   Yield Sample.CKPT]) Sample.always_ok)
           (Sample.world_with "New post: {post_url}" (Some "CKPT"))
           "CKPT" Sample.PIN_OLD [Yield Sample.A; Yield Sample.B; Yield Sample.CKPT]).
  - vm_compute. reflexivity.
  - reflexivity.
  - reflexivity.
Defined.

(** ** Bootstrap mode *)

Lemma catchup_loop_takes news : forall n rest batch,
  n = Z.of_nat (length news) ->
  catchup_loop n (map Yield news ++ rest) batch =
    (batch ++ news, next_raises rest).
Proof.
  induction news as [|post news IH]; intros n rest batch Hn.
  - simpl in Hn. subst n. rewrite app_nil_r. simpl.
    destruct rest as [|[p|e] rest]; reflexivity.
  - cbn [length] in Hn. cbn [map app catchup_loop].
    destruct (Z.ltb_spec 0 n) as [_|Hle]; [|lia].
    rewrite IH by lia. now rewrite <- app_assoc.
Qed.

(** C5. In bootstrap mode (no checkpoint) with a catch-up count [N > 0],
    the collection step accepts exactly the [N] newest posts of the feed,
    whatever their pin flags and dates; [takewhile] then pulls once more, and
    an exception of that pull is the only thing the step can raise. *)
Theorem bootstrap_catchup_accepts_newest
    (args : Args) (round : Round) (w : World) (news : list Post)
    (rest : list pull) :
  load_last_shortcode round w (instagram_username args) = None ->
  (0 < catchup args)%Z ->
  catchup args = Z.of_nat (length news) ->
  collect args round w (map Yield news ++ rest) = (news, next_raises rest).
Proof.
  intros Hload Hpos Hn.
  rewrite (collect_bootstrap _ _ _ _ Hload).
  destruct (Z.ltb_spec 0 (catchup args)) as [_|Hle]; [|lia].
  now rewrite (catchup_loop_takes news _ rest [] Hn).
Qed.

Lemma bootstrap_catchup_accepts_newest_witness :
  let args := {| instagram_username := "test_user";
                 discord_webhook_url := "https://discord.com/api/webhooks/123/abc";
                 refresh_interval := 3600; catchup := 2;
                 no_embed := false; once := false |} in
  let feed := [Yield Sample.PIN_OLD; Yield Sample.OLD; Yield Sample.A] in
  let round := Sample.round_with (Ok feed) Sample.always_ok in
  collect args round (Sample.world_with "" None) feed =
    ([Sample.PIN_OLD; Sample.OLD], None).
Proof.
  cbv zeta.
  apply (bootstrap_catchup_accepts_newest
           {| instagram_username := "test_user";
              discord_webhook_url := "https://discord.com/api/webhooks/123/abc";
              refresh_interval := 3600; catchup := 2;
              no_embed := false; once := false |}
           (Sample.round_with
              (Ok [Yield Sample.PIN_OLD; Yield Sample.OLD; Yield Sample.A])
              Sample.always_ok)
           (Sample.world_with "" None)
           [Sample.PIN_OLD; Sample.OLD] [Yield Sample.A]).
  - vm_compute. reflexivity.
  - simpl. lia.
  - reflexivity.
Defined.

(** ** The message template *)

Lemma replace_from_absent old new s :
  occurs old s = false -> replace_from old new 0 s = s.
Proof.
  induction s as [|c s IH]; intros Hocc; [reflexivity|].
  cbn [occurs] in Hocc. apply orb_false_elim in Hocc as [Hpre Hrest].
  cbn [replace_from]. rewrite Hpre. f_equal. now apply IH.
Qed.

Lemma replace_absent s old new :
  occurs old s = false -> replace s old new = s.
Proof.
  destruct old as [|c old]; intros Hocc.
  - destruct s; discriminate Hocc.
  - now apply replace_from_absent.
Qed.

(** Formatting a text without placeholders leaves it as it is. *)
Lemma replace_all_placeholder_free post text :
  placeholder_free text -> replace_all (placeholders post) text = text.
Proof.
  unfold placeholder_free. intros H.
  repeat (apply Forall_cons in H as [? H]).
  unfold placeholders. cbn [replace_all].
  now rewrite !(replace_absent text) by assumption.
Qed.

Section TemplateOverwritten.

Variable args : Args.
Variable text : string.
Hypothesis text_free : placeholder_free text.

Lemma format_message_fixed post w :
  message_content w = text ->
  message_content (if truthy (message_content w) then format_message post w else w)
    = text.
Proof.
  intros Hw. destruct (truthy (message_content w)); [|assumption].
  simpl. rewrite Hw. now apply replace_all_placeholder_free.
Qed.

Lemma send_to_discord_fixed round post w :
  message_content w = text ->
  message_content (fst (send_to_discord args round post w)) = text /\
  exists sent,
    outbox (fst (send_to_discord args round post w)) = outbox w ++ sent /\
    Forall (fun d => content d = text) sent.
Proof.
  intros Hw. pose proof (format_message_fixed post w Hw) as Hfmt.
  unfold send_to_discord.
  set (w1 := if truthy (message_content w) then format_message post w else w) in *.
  assert (Hout : outbox w1 = outbox w).
  { unfold w1. now destruct (truthy (message_content w)). }
  destruct (no_embed args), (create_embed_raises round post),
    (webhook_raises round post); simpl; (split; [assumption|]);
    rewrite Hout;
    solve [ exists []; split; [now rewrite app_nil_r|constructor]
          | eexists [_]; split; [reflexivity|];
            constructor; [exact Hfmt|constructor] ].
Qed.

Lemma send_loop_fixed round batch : forall w,
  message_content w = text ->
  message_content (fst (send_loop args round batch w)) = text /\
  exists sent,
    outbox (fst (send_loop args round batch w)) = outbox w ++ sent /\
    Forall (fun d => content d = text) sent.
Proof.
  induction batch as [|post batch IH]; intros w Hw.
  - simpl. split; [assumption|]. exists []. split; [now rewrite app_nil_r|constructor].
  - simpl.
    destruct (send_to_discord_fixed round post w Hw) as (Hm & sent1 & Ho1 & Hs1).
    destruct (send_to_discord args round post w) as [w1 [e|]]; simpl in *.
    + split; [assumption|]. now exists sent1.
    + set (w2 := save_last_shortcode round (instagram_username args)
                   (shortcode post) w1).
      assert (Hm2 : message_content w2 = text).
      { unfold w2, save_last_shortcode. now destruct (write_fails round). }
      assert (Ho2 : outbox w2 = outbox w1).
      { unfold w2, save_last_shortcode. now destruct (write_fails round). }
      destruct (IH w2 Hm2) as (Hm3 & sent2 & Ho3 & Hs3).
      split; [assumption|]. exists (sent1 ++ sent2). split.
      * now rewrite Ho3, Ho2, Ho1, <- app_assoc.
      * apply Forall_app. now split.
Qed.

Lemma check_for_new_posts_fixed round w :
  message_content w = text ->
  message_content (fst (check_for_new_posts args round w)) = text /\
  exists sent,
    outbox (fst (check_for_new_posts args round w)) = outbox w ++ sent /\
    Forall (fun d => content d = text) sent.
Proof.
  intros Hw.
  assert (Hsame : message_content w = text /\
                  exists sent, outbox w = outbox w ++ sent /\
                               Forall (fun d => content d = text) sent).
  { split; [assumption|]. exists []. split; [now rewrite app_nil_r|constructor]. }
  unfold check_for_new_posts.
  destruct (get_posts round) as [posts|e].
  - destruct (collect args round w posts) as [[|post batch] [e|]]; simpl;
      try exact Hsame.
    now apply send_loop_fixed.
  - now destruct (profile_except e).
Qed.

End TemplateOverwritten.

(** C9. [format_message] stores the substituted string in
    [args.message_content].  Once a first post has been formatted and its
    placeholders are substituted (none is left in the stored string), that
    string is what [args.message_content] holds for the rest of the run:
    every later send of the same cycle and of every later cycle delivers the
    first post's text, whatever post it is for. *)
Theorem format_message_overwrites_template
    (args : Args) (round : Round) (first : Post) (w : World) :
  truthy (message_content w) = true ->
  placeholder_free (replace_all (placeholders first) (message_content w)) ->
  let text := replace_all (placeholders first) (message_content w) in
  message_content (fst (send_to_discord args round first w)) = text /\
  (forall later,
     message_content (fst (send_loop args round (first :: later) w)) = text /\
     exists sent,
       outbox (fst (send_loop args round (first :: later) w)) = outbox w ++ sent /\
       Forall (fun d => content d = text) sent) /\
  (forall round' w',
     message_content w' = text ->
     message_content (fst (check_for_new_posts args round' w')) = text /\
     exists sent,
       outbox (fst (check_for_new_posts args round' w')) = outbox w' ++ sent /\
       Forall (fun d => content d = text) sent).
Proof.
  intros Htruthy Hfree text.
  assert (Hformat : message_content (format_message first w) = text) by reflexivity.
  assert (Hfirst : message_content (fst (send_to_discord args round first w)) = text).
  { unfold send_to_discord. rewrite Htruthy.
    destruct (no_embed args), (create_embed_raises round first),
      (webhook_raises round first); exact Hformat. }
  split; [assumption|]. split.
  - intros later.
    assert (Hrun : send_loop args round (first :: later) w =
                   send_loop args round (first :: later) (format_message first w)).
    { cbn [send_loop]. unfold send_to_discord. rewrite Htruthy, Hformat.
      destruct (truthy text) eqn:Ht; [|reflexivity].
      assert (Hidem : format_message first (format_message first w) =
                      format_message first w).
      { unfold format_message at 1. rewrite Hformat.
        fold text in Hfree.
        now rewrite (replace_all_placeholder_free first text Hfree). }
      now rewrite Hidem. }
    rewrite Hrun.
    exact (send_loop_fixed args text Hfree round (first :: later)
             (format_message first w) Hformat).
  - intros round' w' Hw'.
    now apply check_for_new_posts_fixed.
Qed.

Lemma format_message_overwrites_template_witness :
  let w := Sample.world_with "New post: {post_url}" (Some "CKPT") in
  let round := Sample.round_with (Ok [Yield Sample.A; Yield Sample.B; Yield Sample.CKPT])
                 Sample.always_ok in
  let text := "New post: https://www.instagram.com/p/B/" in
  replace_all (placeholders Sample.A) (message_content w)
    = "New post: https://www.instagram.com/p/A/" /\
  map (fun d => (shortcode (for_post d), content d))
    (outbox (fst (send_loop Sample.args0 round [Sample.B; Sample.A] w)))
    = [("B", text); ("A", text)] /\
  message_content (fst (send_to_discord Sample.args0 round Sample.B w)) = text /\
  (forall later,
     message_content (fst (send_loop Sample.args0 round (Sample.B :: later) w)) = text /\
     exists sent,
       outbox (fst (send_loop Sample.args0 round (Sample.B :: later) w))
         = outbox w ++ sent /\
       Forall (fun d => content d = text) sent) /\
  (forall round' w',
     message_content w' = text ->
     message_content (fst (check_for_new_posts Sample.args0 round' w')) = text /\
     exists sent,
       outbox (fst (check_for_new_posts Sample.args0 round' w')) = outbox w' ++ sent /\
       Forall (fun d => content d = text) sent).
Proof.
  cbv zeta. split; [reflexivity|]. split; [reflexivity|].
  apply (format_message_overwrites_template Sample.args0
           (Sample.round_with (Ok [Yield Sample.A; Yield Sample.B; Yield Sample.CKPT])
              Sample.always_ok)
           Sample.B (Sample.world_with "New post: {post_url}" (Some "CKPT"))).
  - reflexivity.
  - repeat constructor.
Defined.

(** ** Failing sends *)

(** C6, as stated, does not hold: with the checkpoint at "CKPT", the feed
    A, B, CKPT and a webhook that rejects A, the cycle sends B, saves "B",
    and the exception of the send of A leaves the cycle. *)
Lemma send_failure_not_contained : ~ send_failure_contained.
Proof.
  intros Hclaim.
  destruct (Hclaim Sample.args0
              (Sample.round_with
                 (Ok [Yield Sample.A; Yield Sample.B; Yield Sample.CKPT])
                 (Sample.fails_on "A" HTTPException))
              [] (Sample.world_with "New post: {post_url}" (Some "CKPT"))
              [Yield Sample.A; Yield Sample.B; Yield Sample.CKPT]
              [Sample.A; Sample.B] [Sample.B] Sample.A [] HTTPException)
    as (_ & Hnone & _).
  - reflexivity.
  - vm_compute. reflexivity.
  - reflexivity.
  - repeat constructor.
  - reflexivity.
  - reflexivity.
  - vm_compute in Hnone. discriminate Hnone.
Qed.

(** C6, amended.  When the send of a post fails, its shortcode is not saved:
    the memory file and the outbox are those left by the sends before it.
    The exception leaves [check_for_new_posts], no handler of [main] resumes
    the loop, and the process ends (with a traceback, or through the
    login-required and interrupt handlers) without running a later cycle. *)
Theorem send_failure_keeps_checkpoint_and_ends_loop
    (args : Args) (round : Round) (later : list Round) (w : World)
    (posts : list pull) (batch pre rest : list Post) (post : Post) (e : exn) :
  get_posts round = Ok posts ->
  collect args round w posts = (batch, None) ->
  rev batch = pre ++ post :: rest ->
  Forall (fun p => send_raises args round p = None) pre ->
  send_raises args round post = Some e ->
  exists w',
    check_for_new_posts args round w = (w', Some e) /\
    checkpoint args w' = checkpoint args (fst (send_loop args round pre w)) /\
    outbox w' = outbox (fst (send_loop args round pre w)) /\
    main args (round :: later) w = (w', main_except e) /\
    is_Some (exit_status (main_except e)).
Proof.
  intros Hget Hcollect Hrev Hpre Hpost.
  pose proof (check_for_new_posts_sends _ _ _ _ _ Hget Hcollect) as Hcheck.
  rewrite Hrev in Hcheck.
  destruct (send_loop_fails args round pre post rest e w Hpre Hpost)
    as (Hsnd & Hfiles & Hout).
  rewrite <- Hcheck in Hsnd, Hfiles, Hout.
  rewrite main_step.
  destruct (check_for_new_posts args round w) as [w' r]. simpl in *. subst r.
  exists w'. repeat split; try assumption.
  - unfold checkpoint. now rewrite Hfiles.
  - destruct e; simpl; eauto.
Qed.

Lemma send_failure_keeps_checkpoint_and_ends_loop_witness :
  let round := Sample.round_with
                 (Ok [Yield Sample.A; Yield Sample.B; Yield Sample.CKPT])
                 (Sample.fails_on "A" HTTPException) in
  let w := Sample.world_with "New post: {post_url}" (Some "CKPT") in
  checkpoint Sample.args0 (fst (send_loop Sample.args0 round [Sample.B] w)) = Some "B" /\
  exists w',
    check_for_new_posts Sample.args0 round w = (w', Some HTTPException) /\
    checkpoint Sample.args0 w' =
      checkpoint Sample.args0 (fst (send_loop Sample.args0 round [Sample.B] w)) /\
    outbox w' = outbox (fst (send_loop Sample.args0 round [Sample.B] w)) /\
    main Sample.args0 [round; round] w = (w', main_except HTTPException) /\
    is_Some (exit_status (main_except HTTPException)).
Proof.
  cbv zeta. split; [vm_compute; reflexivity|].
  apply (send_failure_keeps_checkpoint_and_ends_loop Sample.args0
           (Sample.round_with
              (Ok [Yield Sample.A; Yield Sample.B; Yield Sample.CKPT])
              (Sample.fails_on "A" HTTPException))
           [Sample.round_with
              (Ok [Yield Sample.A; Yield Sample.B; Yield Sample.CKPT])
              (Sample.fails_on "A" HTTPException)]
           (Sample.world_with "New post: {post_url}" (Some "CKPT"))
           [Yield Sample.A; Yield Sample.B; Yield Sample.CKPT]
           [Sample.A; Sample.B] [Sample.B] [] Sample.A HTTPException).
  - reflexivity.
  - vm_compute. reflexivity.
  - reflexivity.
  - repeat constructor.
  - reflexivity.
Defined.

(** ** Login required *)

(** In resume mode, a [LoginRequiredException] thrown by the iterator after
    a run of accepted posts below the cap is a login-required condition of
    the feed walk: the [except] clause of [fetch_new_posts] lets it pass. *)
Lemma login_required_in_feed args round w last_shortcode news rest :
  load_last_shortcode round w (instagram_username args) = Some last_shortcode ->
  get_posts round = Ok (map Yield news ++ Throw LoginRequiredException :: rest) ->
  Forall (accepted (cutoff_date (clock round)) last_shortcode) news ->
  (length news < 50)%nat ->
  login_required_at FeedWalk args round w.
Proof.
  intros Hload Hget Hnews Hlen. simpl. eexists. split; [exact Hget|].
  rewrite (collect_resume _ _ _ _ _ Hload), fetch_new_posts_unfold.
  rewrite walk_accept_run by (assumption || (unfold default_limit; lia)).
  reflexivity.
Qed.

(** C7, as stated, does not hold: a [LoginRequiredException] raised by the
    profile lookup is caught inside the cycle and the loop goes on. *)
Lemma login_required_not_always_fatal : ~ login_required_always_fatal.
Proof.
  intros Hclaim.
  specialize (Hclaim ProfileLookup Sample.args0
                (Sample.round_with (Raise LoginRequiredException) Sample.always_ok)
                [] (Sample.world_with "New post: {post_url}" (Some "CKPT"))
                eq_refl).
  vm_compute in Hclaim. discriminate Hclaim.
Qed.

(** C7, amended.  A login-required condition raised once the posts iterator
    has been obtained, during the feed walk or during a send, ends the
    polling loop: [main] raises [SystemExit] with the message asking to log
    in, and the exit status is 1.  Raised by the profile lookup itself, it is
    caught by the cycle, which returns without changing anything, and the
    loop goes on with the next cycle (or returns, in run-once mode). *)
Theorem login_required_fatal_after_profile_lookup
    (s : Stage) (args : Args) (round : Round) (later : list Round) (w : World) :
  login_required_at s args round w ->
  match s with
  | ProfileLookup =>
      check_for_new_posts args round w = (w, None) /\
      main args (round :: later) w =
        if once args then (w, Returned) else main args later w
  | FeedWalk | Sending =>
      snd (main args (round :: later) w) = SystemExit 1 login_required_message /\
      exit_status (snd (main args (round :: later) w)) = Some 1%Z
  end.
Proof.
  intros Hat.
  assert (Hfatal :
    snd (check_for_new_posts args round w) = Some LoginRequiredException ->
    snd (main args (round :: later) w) = SystemExit 1 login_required_message /\
    exit_status (snd (main args (round :: later) w)) = Some 1%Z).
  { intros Hsnd. rewrite main_step, Hsnd. simpl. auto. }
  destruct s; simpl in Hat.
  - assert (Hcheck : check_for_new_posts args round w = (w, None)).
    { unfold check_for_new_posts. now rewrite Hat. }
    split; [assumption|]. rewrite main_step, Hcheck. reflexivity.
  - destruct Hat as (posts & Hget & Hsnd). apply Hfatal.
    unfold check_for_new_posts. rewrite Hget.
    destruct (collect args round w posts) as [batch r]. simpl in Hsnd.
    subst r. now destruct batch.
  - destruct Hat as (posts & batch & Hget & Hcollect & Hsnd). apply Hfatal.
    now rewrite (check_for_new_posts_sends _ _ _ _ _ Hget Hcollect).
Qed.

Lemma login_required_fatal_after_profile_lookup_witness :
  let round := Sample.round_with
                 (Ok [Yield Sample.A; Throw LoginRequiredException])
                 Sample.always_ok in
  let w := Sample.world_with "New post: {post_url}" (Some "CKPT") in
  snd (main Sample.args0 [round; round] w) = SystemExit 1 login_required_message /\
  exit_status (snd (main Sample.args0 [round; round] w)) = Some 1%Z.
Proof.
  cbv zeta.
  apply (login_required_fatal_after_profile_lookup FeedWalk Sample.args0
           (Sample.round_with
              (Ok [Yield Sample.A; Throw LoginRequiredException]) Sample.always_ok)
           [Sample.round_with
              (Ok [Yield Sample.A; Throw LoginRequiredException]) Sample.always_ok]
           (Sample.world_with "New post: {post_url}" (Some "CKPT"))).
  exists [Yield Sample.A; Throw LoginRequiredException].
  split; [reflexivity|vm_compute; reflexivity].
Defined.

(** ** Defects *)

(** The cutoff test raises on every timezone-aware date: the cutoff is
    [datetime.now() - timedelta(days=7)], a naive value. *)
Lemma cutoff_test_raises_on_aware clock post rest last_shortcode batch limit :
  aware (date post) ->
  fetch_new_posts clock (Yield post :: rest) last_shortcode batch limit =
    (batch, Some TypeError).
Proof.
  intros [offset Hoffset]. unfold fetch_new_posts. simpl.
  unfold dt_lt. rewrite Hoffset. reflexivity.
Qed.

(** C2.  On the feed of [test_cutoff_date_is_timezone_aware] (two posts
    dated with [datetime.now(timezone.utc)], 10 and 2 days back) the call
    [fetch_new_posts(posts, "test_user", [], limit=10)] raises [TypeError]:
    the aware date of the first post is compared with the naive cutoff. *)
Theorem fetch_new_posts_raises_on_utc_dates :
  fetch_new_posts Sample.clock0
    [Yield (Sample.post_at "OLD1" (Sample.days_ago_utc 10) false);
     Yield (Sample.post_at "RECENT1" (Sample.days_ago_utc 2) false)]
    "test_user" [] 10 = ([], Some TypeError).
Proof. reflexivity. Qed.

(** C8.  Loading a memory file that holds the plain text XYZ789, with or
    without surrounding white space, gives back the bare string: the result
    of [load_last_shortcode] is an optional [str], there is no record, no
    list of sent posts and no counter, and the cycle resumes from it. *)
Theorem load_last_shortcode_returns_bare_text :
  let round := Sample.round_with (Ok []) Sample.always_ok in
  let newline := String (Ascii.ascii_of_nat 10) "" in
  load_last_shortcode round (Sample.world_with "" (Some "XYZ789")) "test_user"
    = Some "XYZ789" /\
  load_last_shortcode round
    (Sample.world_with "" (Some ("  XYZ789" +:+ newline))) "test_user"
    = Some "XYZ789" /\
  forall posts,
    collect Sample.args0 round (Sample.world_with "" (Some "XYZ789")) posts =
      fetch_new_posts Sample.clock0 posts "XYZ789" [] default_limit.
Proof.
  cbv zeta. split; [vm_compute; reflexivity|]. split; [vm_compute; reflexivity|].
  intros posts. apply collect_resume. vm_compute. reflexivity.
Qed.

(** ** The memory file: white space, round trip, separation *)

Lemma rstrip_cons c s :
  rstrip (String c s) =
    match rstrip s with
    | EmptyString => if is_space c then EmptyString else String c EmptyString
    | String d r => String c (String d r)
    end.
Proof. reflexivity. Qed.

Lemma rstrip_fixed s : rstrip (rstrip s) = rstrip s.
Proof.
  induction s as [|c s IH]; [reflexivity|].
  rewrite rstrip_cons. destruct (rstrip s) as [|d r] eqn:Hr.
  - destruct (is_space c) eqn:Hc; [reflexivity|].
    rewrite rstrip_cons. simpl rstrip. now rewrite Hc.
  - rewrite rstrip_cons, IH. reflexivity.
Qed.

Lemma rstrip_head c s :
  is_space c = false -> exists r, rstrip (String c s) = String c r.
Proof.
  intros Hc. cbn [rstrip]. destruct (rstrip s) as [|d r].
  - rewrite Hc. now exists EmptyString.
  - now exists (String d r).
Qed.

Lemma lstrip_head s :
  lstrip s = EmptyString \/
  exists c r, lstrip s = String c r /\ is_space c = false.
Proof.
  induction s as [|c s IH]; [now left|].
  cbn [lstrip]. destruct (is_space c) eqn:Hc; [exact IH|].
  right. now exists c, s.
Qed.

Lemma strip_fixed s : strip (strip s) = strip s.
Proof.
  unfold strip.
  destruct (lstrip_head s) as [Hl|(c & r & Hl & Hc)]; rewrite Hl; [reflexivity|].
  destruct (rstrip_head c r Hc) as [r' Hr].
  rewrite Hr. cbn [lstrip]. rewrite Hc, <- Hr. apply rstrip_fixed.
Qed.

Lemma strip_empty_iff s : strip s = EmptyString <-> all_space s = true.
Proof.
  unfold strip. split.
  - intros Hs. destruct (lstrip_head s) as [Hl|(c & r & Hl & Hc)].
    + clear Hs. induction s as [|d s IH]; [reflexivity|].
      cbn [lstrip] in Hl. cbn [all_space].
      destruct (is_space d); [now apply IH|discriminate].
    + rewrite Hl in Hs. destruct (rstrip_head c r Hc) as [r' Hr]. congruence.
  - intros Hall. assert (Hl : lstrip s = EmptyString).
    { induction s as [|d s IH]; [reflexivity|].
      cbn [all_space] in Hall. apply andb_prop in Hall as [Hd Hs].
      cbn [lstrip]. rewrite Hd. now apply IH. }
    now rewrite Hl.
Qed.

Lemma truthy_false_iff s : truthy s = false <-> s = EmptyString.
Proof. destruct s; simpl; split; intros H; (reflexivity || discriminate H). Qed.

Lemma append_inj_l (s a b : string) : s +:+ a = s +:+ b -> a = b.
Proof. induction s as [|c s IH]; simpl; [auto|]. intros [= H]. auto. Qed.

Lemma append_length (a b : string) :
  String.length (a +:+ b) = String.length a + String.length b.
Proof. induction a as [|c a IH]; simpl; [reflexivity|]. now rewrite IH. Qed.

Lemma append_inj_r (t a b : string) : a +:+ t = b +:+ t -> a = b.
Proof.
  revert b. induction a as [|c a IH]; intros [|d b] H.
  - reflexivity.
  - apply (f_equal String.length) in H.
    rewrite !append_length in H. simpl in H. lia.
  - apply (f_equal String.length) in H.
    rewrite !append_length in H. simpl in H. lia.
  - simpl in H. injection H as -> H. f_equal. now apply IH.
Qed.

Lemma get_memory_path_inj u1 u2 :
  get_memory_path u1 = get_memory_path u2 -> u1 = u2.
Proof.
  unfold get_memory_path. intros H.
  apply append_inj_l in H. now apply append_inj_r in H.
Qed.

(** X1. What [load_last_shortcode] returns is never empty and carries no
    white space at either end: stripping it again changes nothing. *)
Theorem loaded_shortcode_is_stripped
    (round : Round) (w : World) (username code : string) :
  load_last_shortcode round w username = Some code ->
  code <> EmptyString /\ strip code = code.
Proof.
  unfold load_last_shortcode.
  destruct (files w !! get_memory_path username) as [text|]; [|discriminate].
  destruct (read_fails round); [discriminate|].
  destruct (truthy (strip text)) eqn:Ht; [|discriminate].
  intros [= <-]. split.
  - intros Hempty. rewrite Hempty in Ht. discriminate Ht.
  - apply strip_fixed.
Qed.

Lemma loaded_shortcode_is_stripped_witness :
  "XYZ789" <> EmptyString /\ strip "XYZ789" = "XYZ789".
Proof.
  apply (loaded_shortcode_is_stripped
           (Sample.round_with (Ok []) Sample.always_ok)
           (Sample.world_with "" (Some "  XYZ789 ")) "test_user" "XYZ789").
  vm_compute. reflexivity.
Defined.

(** X2. [load_last_shortcode] returns [None] exactly when the memory file
    is missing, when reading it fails, or when it holds white space only
    (an empty file included). *)
Theorem load_none_iff (round : Round) (w : World) (username : string) :
  load_last_shortcode round w username = None <->
  match files w !! get_memory_path username with
  | None => True
  | Some text => read_fails round = true \/ all_space text = true
  end.
Proof.
  unfold load_last_shortcode.
  destruct (files w !! get_memory_path username) as [text|]; [|tauto].
  destruct (read_fails round); [tauto|].
  rewrite <- strip_empty_iff, <- truthy_false_iff.
  destruct (truthy (strip text)); split; intros H; try discriminate; auto.
  destruct H as [H|H]; discriminate H.
Qed.

Lemma load_none_iff_witness :
  load_last_shortcode (Sample.round_with (Ok []) Sample.always_ok)
    (Sample.world_with "" (Some "   ")) "test_user" = None.
Proof.
  apply (proj2 (load_none_iff (Sample.round_with (Ok []) Sample.always_ok)
                  (Sample.world_with "" (Some "   ")) "test_user")).
  vm_compute. right. reflexivity.
Defined.



(** X4. Each username has a memory file of its own: saving the shortcode of
    one profile leaves what is loaded for every other profile as it was. *)
Theorem save_leaves_other_profiles
    (round : Round) (w : World) (username other code : string) :
  other <> username ->
  load_last_shortcode round (save_last_shortcode round username code w) other
    = load_last_shortcode round w other.
Proof.
  intros Hne. unfold load_last_shortcode, save_last_shortcode.
  destruct (write_fails round); [reflexivity|]. simpl.
  rewrite lookup_insert_ne; [reflexivity|].
  intros Hpath. apply get_memory_path_inj in Hpath. congruence.
Qed.

Lemma save_leaves_other_profiles_witness :
  let round := Sample.round_with (Ok []) Sample.always_ok in
  let w := Sample.world_with "" (Some "CKPT") in
  load_last_shortcode round (save_last_shortcode round "someone_else" "ZZZ" w)
    "test_user" = load_last_shortcode round w "test_user".
Proof.
  cbv zeta.
  apply (save_leaves_other_profiles (Sample.round_with (Ok []) Sample.always_ok)
           (Sample.world_with "" (Some "CKPT")) "someone_else" "test_user" "ZZZ").
  discriminate.
Defined.

(** ** The resume walk: what it appends, and when it gives up *)

Lemma fetch_loop_sound cutoff last_shortcode limit posts : forall batch count,
  exists added,
    fst (fetch_loop cutoff last_shortcode limit posts batch count) = batch ++ added /\
    Forall (accepted cutoff last_shortcode) added /\
    sublist added (yields posts).
Proof.
  induction posts as [|[post|e] rest IH]; intros batch count.
  - exists []. simpl. rewrite app_nil_r. repeat split; constructor.
  - assert (Hstop : exists added,
              batch = batch ++ added /\
              Forall (accepted cutoff last_shortcode) added /\
              sublist added (yields (Yield post :: rest))).
    { exists []. rewrite app_nil_r. repeat split; [constructor|apply sublist_nil_l]. }
    cbn [fetch_loop].
    destruct (dt_lt (date post) cutoff) as [[|]|e] eqn:Hdate; try exact Hstop.
    destruct (String.eqb (shortcode post) last_shortcode) eqn:Hcode; try exact Hstop.
    destruct (is_pinned post) eqn:Hpin.
    + destruct (IH batch count) as (added & Heq & Hacc & Hsub).
      exists added. repeat split; try assumption.
      cbn [yields]. now apply sublist_cons_r; left.
    + assert (Hpost : accepted cutoff last_shortcode post).
      { repeat split; try assumption. now apply String.eqb_neq. }
      destruct (limit <=? count + 1)%Z.
      * exists [post]. repeat split.
        -- constructor; [assumption|constructor].
        -- cbn [yields]. apply sublist_skip, sublist_nil_l.
      * destruct (IH (batch ++ [post]) (count + 1)%Z) as (added & Heq & Hacc & Hsub).
        exists (post :: added). repeat split.
        -- rewrite Heq, <- app_assoc. reflexivity.
        -- now constructor.
        -- cbn [yields]. now apply sublist_skip.
  - exists []. simpl. rewrite app_nil_r. repeat split; [constructor|apply sublist_nil_l].
Qed.

(** X5. [fetch_new_posts] only appends: the list it was given is kept, and
    what is added are posts of the feed, in feed order, each inside the
    7-day window, different from the checkpoint and not pinned. *)
Theorem fetch_new_posts_appends_accepted_posts
    (clock : Z) (posts : list pull) (last_shortcode : string)
    (batch : list Post) (limit : Z) :
  exists added,
    fst (fetch_new_posts clock posts last_shortcode batch limit) = batch ++ added /\
    Forall (accepted (cutoff_date clock) last_shortcode) added /\
    sublist added (yields posts).
Proof.
  rewrite fetch_new_posts_unfold. simpl fst. apply fetch_loop_sound.
Qed.

Lemma fetch_loop_passing cutoff last_shortcode limit feed : forall batch count,
  Forall (passes cutoff last_shortcode) feed ->
  (0 <= count < Z.max limit 1)%Z ->
  fetch_loop cutoff last_shortcode limit (map Yield feed) batch count =
    (batch ++ take (Z.to_nat (Z.max limit 1 - count)) (unpinned feed), None).
Proof.
  induction feed as [|post feed IH]; intros batch count Hall Hcount.
  - simpl. unfold unpinned. simpl. now rewrite take_nil, app_nil_r.
  - apply Forall_cons in Hall as [[Hin Hne] Hall].
    unfold within in Hin. apply String.eqb_neq in Hne.
    cbn [map fetch_loop]. rewrite Hin, Hne.
    unfold unpinned. cbn [List.filter].
    destruct (is_pinned post); cbn [negb].
    + now apply IH.
    + replace (Z.to_nat (Z.max limit 1 - count))
        with (S (Z.to_nat (Z.max limit 1 - count - 1))) by lia.
      cbn [take].
      destruct (Z.leb_spec limit (count + 1)) as [Hle|Hlt].
      * replace (Z.to_nat (Z.max limit 1 - count - 1)) with 0%nat by lia.
        reflexivity.
      * rewrite IH by (assumption || lia).
        replace (Z.max limit 1 - (count + 1))%Z
          with (Z.max limit 1 - count - 1)%Z by lia.
        now rewrite <- app_assoc.
Qed.

(** X6. When the checkpoint is not in the feed and the whole feed is inside
    the window, the batch is made of the first [limit] posts that are not
    pinned, and of the first one when [limit] is below 1: the last known
    post is not found within the limit. *)
Theorem checkpoint_not_found_takes_first_unpinned
    (clock : Z) (feed : list Post) (last_shortcode : string) (limit : Z) :
  Forall (passes (cutoff_date clock) last_shortcode) feed ->
  fetch_new_posts clock (map Yield feed) last_shortcode [] limit =
    (take (Z.to_nat (Z.max limit 1)) (unpinned feed), None).
Proof.
  intros Hall. rewrite fetch_new_posts_unfold.
  rewrite (fetch_loop_passing _ _ _ feed [] 0%Z Hall) by lia.
  simpl. now rewrite Z.sub_0_r.
Qed.

Lemma checkpoint_not_found_takes_first_unpinned_witness :
  fetch_new_posts Sample.clock0
    (map Yield [Sample.PIN; Sample.A; Sample.B; Sample.C]) "GONE" [] 2 =
    ([Sample.A; Sample.B], None).
Proof.
  apply (checkpoint_not_found_takes_first_unpinned Sample.clock0
           [Sample.PIN; Sample.A; Sample.B; Sample.C] "GONE" 2).
  repeat constructor; discriminate.
Defined.

Lemma fetch_loop_low_limit cutoff last_shortcode limit posts : forall batch count,
  (limit <= 1)%Z -> (0 <= count)%Z ->
  fetch_loop cutoff last_shortcode limit posts batch count =
    fetch_loop cutoff last_shortcode 1 posts batch count.
Proof.
  induction posts as [|[post|e] rest IH]; intros batch count Hlimit Hcount;
    try reflexivity.
  cbn [fetch_loop].
  destruct (dt_lt (date post) cutoff) as [[|]|e]; try reflexivity.
  destruct (String.eqb (shortcode post) last_shortcode); try reflexivity.
  destruct (is_pinned post); [now apply IH|].
  destruct (Z.leb_spec limit (count + 1)) as [_|Hlt]; [|lia].
  destruct (Z.leb_spec 1 (count + 1)) as [_|Hlt]; [reflexivity|lia].
Qed.

(** X7. A [limit] of zero or below does not make the batch empty: the cap
    is tested after the append, so the call behaves as with [limit = 1]. *)
Theorem limit_below_one_acts_as_one
    (clock : Z) (posts : list pull) (last_shortcode : string)
    (batch : list Post) (limit : Z) :
  (limit <= 1)%Z ->
  fetch_new_posts clock posts last_shortcode batch limit =
    fetch_new_posts clock posts last_shortcode batch 1.
Proof.
  intros Hlimit. rewrite !fetch_new_posts_unfold.
  now rewrite (fetch_loop_low_limit _ _ limit posts batch 0%Z Hlimit) by lia.
Qed.

Lemma limit_below_one_acts_as_one_witness :
  fetch_new_posts Sample.clock0 [Yield Sample.A; Yield Sample.B] "CKPT" [] 0 =
    fetch_new_posts Sample.clock0 [Yield Sample.A; Yield Sample.B] "CKPT" [] 1 /\
  fst (fetch_new_posts Sample.clock0 [Yield Sample.A; Yield Sample.B] "CKPT" [] 0)
    = [Sample.A].
Proof.
  split; [|reflexivity].
  apply (limit_below_one_acts_as_one Sample.clock0
           [Yield Sample.A; Yield Sample.B] "CKPT" [] 0).
  lia.
Defined.

Lemma fetch_loop_stepped_over_run cutoff last_shortcode limit pins : forall rest batch count,
  Forall (stepped_over cutoff last_shortcode) pins ->
  fetch_loop cutoff last_shortcode limit (map Yield pins ++ rest) batch count =
    fetch_loop cutoff last_shortcode limit rest batch count.
Proof.
  induction pins as [|pin pins IH]; intros rest batch count Hall; [reflexivity|].
  apply Forall_cons in Hall as [Hpin Hall].
  cbn [map app]. rewrite walk_step_over by assumption. now apply IH.
Qed.

(** X8. Nothing new: when only pinned posts stand above the checkpoint in
    the feed, the cycle sends nothing and leaves the message template, the
    memory file and the outbox as they were. *)
Theorem no_new_posts_changes_nothing
    (args : Args) (round : Round) (w : World) (last_shortcode : string)
    (pins : list Post) (ckpt : Post) (older : list pull) :
  load_last_shortcode round w (instagram_username args) = Some last_shortcode ->
  get_posts round = Ok (map Yield pins ++ Yield ckpt :: older) ->
  Forall (stepped_over (cutoff_date (clock round)) last_shortcode) pins ->
  shortcode ckpt = last_shortcode ->
  naive (date ckpt) ->
  check_for_new_posts args round w = (w, None).
Proof.
  intros Hload Hget Hpins Hck Hnaive.
  unfold check_for_new_posts.
  rewrite Hget, (collect_resume _ _ _ _ _ Hload), fetch_new_posts_unfold.
  rewrite fetch_loop_stepped_over_run by assumption.
  assert (Hcmp : dt_lt (date ckpt) (cutoff_date (clock round)) =
                   Ok (wall (date ckpt) <? wall (cutoff_date (clock round)))%Z).
  { unfold dt_lt. unfold naive in Hnaive. now rewrite Hnaive. }
  cbn [fetch_loop]. rewrite Hcmp.
  destruct (wall (date ckpt) <? wall (cutoff_date (clock round)))%Z; [reflexivity|].
  apply String.eqb_eq in Hck. now rewrite Hck.
Qed.

Lemma no_new_posts_changes_nothing_witness :
  let round := Sample.round_with
                 (Ok [Yield Sample.PIN; Yield Sample.CKPT; Yield Sample.OLD])
                 Sample.always_ok in
  let w := Sample.world_with "New post: {post_url}" (Some "CKPT") in
  check_for_new_posts Sample.args0 round w = (w, None).
Proof.
  cbv zeta.
  apply (no_new_posts_changes_nothing Sample.args0
           (Sample.round_with
              (Ok [Yield Sample.PIN; Yield Sample.CKPT; Yield Sample.OLD])
              Sample.always_ok)
           (Sample.world_with "New post: {post_url}" (Some "CKPT"))
           "CKPT" [Sample.PIN] Sample.CKPT [Yield Sample.OLD]).
  - vm_compute. reflexivity.
  - reflexivity.
  - repeat constructor; discriminate.
  - reflexivity.
  - reflexivity.
Defined.

(** X9. An exception of the iterator that the [except] clause of
    [fetch_new_posts] does not name leaves the cycle: the posts accepted
    before it are not sent, nothing is saved, and [main] ends on it. *)
Theorem other_error_in_walk_discards_batch
    (args : Args) (round : Round) (later : list Round) (w : World)
    (last_shortcode : string) (news : list Post) (rest : list pull) (e : exn) :
  load_last_shortcode round w (instagram_username args) = Some last_shortcode ->
  get_posts round = Ok (map Yield news ++ Throw e :: rest) ->
  Forall (accepted (cutoff_date (clock round)) last_shortcode) news ->
  (length news < 50)%nat ->
  fetch_except e = false ->
  fetch_new_posts (clock round) (map Yield news ++ Throw e :: rest)
    last_shortcode [] default_limit = (news, Some e) /\
  check_for_new_posts args round w = (w, Some e) /\
  main args (round :: later) w = (w, main_except e).
Proof.
  intros Hload Hget Hnews Hlen He.
  assert (Hfetch : fetch_new_posts (clock round) (map Yield news ++ Throw e :: rest)
                     last_shortcode [] default_limit = (news, Some e)).
  { rewrite fetch_new_posts_unfold.
    rewrite walk_accept_run by (assumption || (unfold default_limit; lia)).
    simpl. now rewrite He. }
  assert (Hcheck : check_for_new_posts args round w = (w, Some e)).
  { unfold check_for_new_posts.
    rewrite Hget, (collect_resume _ _ _ _ _ Hload), Hfetch.
    now destruct news. }
  repeat split; try assumption.
  rewrite main_step, Hcheck. reflexivity.
Qed.

Lemma other_error_in_walk_discards_batch_witness :
  let round := Sample.round_with
                 (Ok [Yield Sample.A; Yield Sample.B; Throw ProfileNotExistsException])
                 Sample.always_ok in
  let w := Sample.world_with "New post: {post_url}" (Some "CKPT") in
  fetch_new_posts Sample.clock0
    [Yield Sample.A; Yield Sample.B; Throw ProfileNotExistsException]
    "CKPT" [] default_limit = ([Sample.A; Sample.B], Some ProfileNotExistsException) /\
  check_for_new_posts Sample.args0 round w = (w, Some ProfileNotExistsException) /\
  main Sample.args0 [round] w = (w, Traceback ProfileNotExistsException).
Proof.
  cbv zeta.
  apply (other_error_in_walk_discards_batch Sample.args0
           (Sample.round_with
              (Ok [Yield Sample.A; Yield Sample.B; Throw ProfileNotExistsException])
              Sample.always_ok)
           [] (Sample.world_with "New post: {post_url}" (Some "CKPT"))
           "CKPT" [Sample.A; Sample.B] [] ProfileNotExistsException).
  - vm_compute. reflexivity.
  - reflexivity.
  - repeat constructor; discriminate.
  - simpl. lia.
  - reflexivity.
Defined.

(** ** Bootstrap mode: short feeds, errors, the fresh window *)

Lemma catchup_loop_short news : forall n batch,
  (Z.of_nat (length news) <= n)%Z ->
  catchup_loop n (map Yield news) batch = (batch ++ news, None).
Proof.
  induction news as [|post news IH]; intros n batch Hn.
  - simpl. now rewrite app_nil_r.
  - cbn [length] in Hn. cbn [map catchup_loop].
    destruct (Z.ltb_spec 0 n) as [_|Hle]; [|lia].
    rewrite IH by lia. now rewrite <- app_assoc.
Qed.

(** X10. In bootstrap mode with a catch-up count above the number of posts
    the profile has, every post of the feed is collected and the cycle sends
    them all, oldest first. *)
Theorem catchup_on_short_feed_takes_all
    (args : Args) (round : Round) (w : World) (news : list Post) :
  load_last_shortcode round w (instagram_username args) = None ->
  get_posts round = Ok (map Yield news) ->
  (0 < catchup args)%Z ->
  (Z.of_nat (length news) <= catchup args)%Z ->
  collect args round w (map Yield news) = (news, None) /\
  check_for_new_posts args round w = send_loop args round (rev news) w.
Proof.
  intros Hload Hget Hpos Hlen.
  assert (Hcollect : collect args round w (map Yield news) = (news, None)).
  { rewrite (collect_bootstrap _ _ _ _ Hload).
    destruct (Z.ltb_spec 0 (catchup args)) as [_|Hle]; [|lia].
    now rewrite catchup_loop_short. }
  split; [assumption|].
  now apply (check_for_new_posts_sends _ _ _ _ _ Hget Hcollect).
Qed.

Lemma catchup_on_short_feed_takes_all_witness :
  let args := {| instagram_username := "test_user";
                 discord_webhook_url := "https://discord.com/api/webhooks/123/abc";
                 refresh_interval := 3600; catchup := 5;
                 no_embed := false; once := false |} in
  let round := Sample.round_with (Ok (map Yield [Sample.A; Sample.OLD]))
                 Sample.always_ok in
  let w := Sample.world_with "" None in
  collect args round w (map Yield [Sample.A; Sample.OLD]) =
    ([Sample.A; Sample.OLD], None) /\
  check_for_new_posts args round w =
    send_loop args round (rev [Sample.A; Sample.OLD]) w.
Proof.
  cbv zeta.
  apply (catchup_on_short_feed_takes_all
           {| instagram_username := "test_user";
              discord_webhook_url := "https://discord.com/api/webhooks/123/abc";
              refresh_interval := 3600; catchup := 5;
              no_embed := false; once := false |}
           (Sample.round_with (Ok (map Yield [Sample.A; Sample.OLD])) Sample.always_ok)
           (Sample.world_with "" None) [Sample.A; Sample.OLD]).
  - vm_compute. reflexivity.
  - reflexivity.
  - simpl. lia.
  - simpl. lia.
Defined.

(** X11. The catch-up loop has no [except] clause and pulls one item more
    than it keeps: an exception raised by that pull, a connection error
    included, leaves the cycle although the [N] posts are collected; none of
    them is sent, nothing is saved, and [main] ends on the exception. *)
Theorem catchup_error_after_last_post_ends_cycle
    (args : Args) (round : Round) (later : list Round) (w : World)
    (news : list Post) (rest : list pull) (e : exn) :
  load_last_shortcode round w (instagram_username args) = None ->
  get_posts round = Ok (map Yield news ++ Throw e :: rest) ->
  (0 < catchup args)%Z ->
  catchup args = Z.of_nat (length news) ->
  check_for_new_posts args round w = (w, Some e) /\
  main args (round :: later) w = (w, main_except e).
Proof.
  intros Hload Hget Hpos Hn.
  assert (Hcheck : check_for_new_posts args round w = (w, Some e)).
  { unfold check_for_new_posts. rewrite Hget, (collect_bootstrap _ _ _ _ Hload).
    destruct (Z.ltb_spec 0 (catchup args)) as [_|Hle]; [|lia].
    rewrite (catchup_loop_takes news _ (Throw e :: rest) [] Hn). simpl.
    now destruct news. }
  split; [assumption|]. rewrite main_step, Hcheck. reflexivity.
Qed.

Lemma catchup_error_after_last_post_ends_cycle_witness :
  let args := {| instagram_username := "test_user";
                 discord_webhook_url := "https://discord.com/api/webhooks/123/abc";
                 refresh_interval := 3600; catchup := 2;
                 no_embed := false; once := false |} in
  let round := Sample.round_with
                 (Ok [Yield Sample.A; Yield Sample.B; Throw ConnectionException])
                 Sample.always_ok in
  let w := Sample.world_with "" None in
  check_for_new_posts args round w = (w, Some ConnectionException) /\
  main args [round; round] w = (w, Traceback ConnectionException).
Proof.
  cbv zeta.
  apply (catchup_error_after_last_post_ends_cycle
           {| instagram_username := "test_user";
              discord_webhook_url := "https://discord.com/api/webhooks/123/abc";
              refresh_interval := 3600; catchup := 2;
              no_embed := false; once := false |}
           (Sample.round_with
              (Ok [Yield Sample.A; Yield Sample.B; Throw ConnectionException])
              Sample.always_ok)
           [Sample.round_with
              (Ok [Yield Sample.A; Yield Sample.B; Throw ConnectionException])
              Sample.always_ok]
           (Sample.world_with "" None) [Sample.A; Sample.B] []
           ConnectionException).
  - vm_compute. reflexivity.
  - reflexivity.
  - simpl. lia.
  - reflexivity.
Defined.

Lemma fresh_take_sound until posts : forall batch,
  exists added,
    fst (fresh_take until posts batch) = batch ++ added /\
    Forall (fun post => dt_gt (date post) until = Ok true) added /\
    sublist added (yields posts).
Proof.
  induction posts as [|[post|e] rest IH]; intros batch.
  - exists []. simpl. rewrite app_nil_r. repeat split; constructor.
  - cbn [fresh_take].
    destruct (dt_gt (date post) until) as [[|]|e] eqn:Hdate;
      try (exists []; simpl; rewrite app_nil_r;
           repeat split; [constructor|apply sublist_nil_l]).
    destruct (IH (batch ++ [post])) as (added & Heq & Hall & Hsub).
    exists (post :: added). repeat split.
    + now rewrite Heq, <- app_assoc.
    + now constructor.
    + cbn [yields]. now apply sublist_skip.
  - exists []. simpl. rewrite app_nil_r. repeat split; [constructor|apply sublist_nil_l].
Qed.

Lemma fresh_loop_sound since until posts :
  let out := fst (fresh_loop since until posts []) in
  Forall (fun post => dt_gt (date post) until = Ok true) out /\
  sublist out (yields posts) /\
  match out with
  | [] => True
  | first :: _ => dt_gt (date first) since = Ok false
  end.
Proof.
  cbv zeta. induction posts as [|[post|e] rest IH].
  - simpl. repeat split; constructor.
  - cbn [fresh_loop].
    destruct (dt_gt (date post) since) as [[|]|e] eqn:Hsince;
      try (simpl; repeat split; [constructor|apply sublist_nil_l]).
    + destruct IH as (Hall & Hsub & Hfirst). repeat split; try assumption.
      cbn [yields]. now apply sublist_cons_r; left.
    + destruct (dt_gt (date post) until) as [[|]|e] eqn:Huntil;
        try (simpl; repeat split; [constructor|apply sublist_nil_l]).
      destruct (fresh_take_sound until rest ([] ++ [post]))
        as (added & Heq & Hall & Hsub).
      rewrite Heq. simpl. repeat split.
      * now constructor.
      * now apply sublist_skip.
      * assumption.
  - simpl. repeat split; [constructor|apply sublist_nil_l].
Qed.

(** X12. In bootstrap mode without a catch-up count, every post collected
    is a post of the feed dated strictly after the clock minus the refresh
    interval, the posts keep their feed order, and the first one collected is
    not dated after the clock. *)
Theorem fresh_window_collects_recent_posts
    (args : Args) (round : Round) (w : World) (posts : list pull) :
  load_last_shortcode round w (instagram_username args) = None ->
  (catchup args <= 0)%Z ->
  let until := dt_sub (datetime_now (clock round))
                 (timedelta_seconds (refresh_interval args)) in
  let out := fst (collect args round w posts) in
  Forall (fun post => dt_gt (date post) until = Ok true) out /\
  sublist out (yields posts) /\
  match out with
  | [] => True
  | first :: _ => dt_gt (date first) (datetime_now (clock round)) = Ok false
  end.
Proof.
  intros Hload Hcatchup. cbv zeta.
  rewrite (collect_bootstrap _ _ _ _ Hload).
  destruct (Z.ltb_spec 0 (catchup args)) as [Hlt|_]; [lia|].
  apply fresh_loop_sound.
Qed.

Lemma fresh_window_collects_recent_posts_witness :
  let fresh := Sample.post_at "NEW" (datetime_now (Sample.clock0 - 1000)) false in
  let posts := [Yield fresh; Yield Sample.A] in
  let round := Sample.round_with (Ok posts) Sample.always_ok in
  let w := Sample.world_with "" None in
  collect Sample.args0 round w posts = ([fresh], None) /\
  let until := dt_sub (datetime_now (clock round))
                 (timedelta_seconds (refresh_interval Sample.args0)) in
  let out := fst (collect Sample.args0 round w posts) in
  Forall (fun post => dt_gt (date post) until = Ok true) out /\
  sublist out (yields posts) /\
  match out with
  | [] => True
  | first :: _ => dt_gt (date first) (datetime_now (clock round)) = Ok false
  end.
Proof.
  cbv zeta. split; [vm_compute; reflexivity|].
  apply (fresh_window_collects_recent_posts Sample.args0
           (Sample.round_with
              (Ok [Yield (Sample.post_at "NEW" (datetime_now (Sample.clock0 - 1000)) false);
                   Yield Sample.A]) Sample.always_ok)
           (Sample.world_with "" None)
           [Yield (Sample.post_at "NEW" (datetime_now (Sample.clock0 - 1000)) false);
            Yield Sample.A]).
  - vm_compute. reflexivity.
  - simpl. lia.
Defined.

(** X13. The fresh-window walk of bootstrap mode compares post dates with
    naive clock readings as well: a timezone-aware date on the first post
    makes the cycle raise [TypeError], which ends [main] with a traceback. *)
Theorem fresh_window_raises_on_aware_date
    (args : Args) (round : Round) (later : list Round) (w : World)
    (first : Post) (rest : list pull) :
  load_last_shortcode round w (instagram_username args) = None ->
  (catchup args <= 0)%Z ->
  get_posts round = Ok (Yield first :: rest) ->
  aware (date first) ->
  check_for_new_posts args round w = (w, Some TypeError) /\
  main args (round :: later) w = (w, Traceback TypeError).
Proof.
  intros Hload Hcatchup Hget [offset Hoffset].
  assert (Hcheck : check_for_new_posts args round w = (w, Some TypeError)).
  { unfold check_for_new_posts. rewrite Hget, (collect_bootstrap _ _ _ _ Hload).
    destruct (Z.ltb_spec 0 (catchup args)) as [Hlt|_]; [lia|].
    cbn [fresh_loop]. unfold dt_gt, dt_lt. simpl utcoffset. now rewrite Hoffset. }
  split; [assumption|]. rewrite main_step, Hcheck. reflexivity.
Qed.

Lemma fresh_window_raises_on_aware_date_witness :
  let first := Sample.post_at "NEW" (datetime_now_utc (Sample.clock0 - 1000)) false in
  let round := Sample.round_with (Ok [Yield first]) Sample.always_ok in
  let w := Sample.world_with "" None in
  check_for_new_posts Sample.args0 round w = (w, Some TypeError) /\
  main Sample.args0 [round] w = (w, Traceback TypeError).
Proof.
  cbv zeta.
  apply (fresh_window_raises_on_aware_date Sample.args0
           (Sample.round_with
              (Ok [Yield (Sample.post_at "NEW"
                            (datetime_now_utc (Sample.clock0 - 1000)) false)])
              Sample.always_ok)
           [] (Sample.world_with "" None)
           (Sample.post_at "NEW" (datetime_now_utc (Sample.clock0 - 1000)) false) []).
  - vm_compute. reflexivity.
  - simpl. lia.
  - reflexivity.
  - now exists 0%Z.
Defined.

(** ** The send loop: order, checkpoint, disk failures *)

Lemma save_last_shortcode_outbox round username code w :
  outbox (save_last_shortcode round username code w) = outbox w.
Proof. unfold save_last_shortcode. now destruct (write_fails round). Qed.

Lemma save_last_shortcode_other round username code w path :
  path <> get_memory_path username ->
  files (save_last_shortcode round username code w) !! path = files w !! path.
Proof.
  intros Hne. unfold save_last_shortcode.
  destruct (write_fails round); [reflexivity|]. simpl.
  now rewrite lookup_insert_ne.
Qed.

(** A batch splits at the first post whose send fails. *)
Lemma split_at_first_failure args round (batch : list Post) :
  exists sent rest,
    batch = sent ++ rest /\
    Forall (fun post => send_raises args round post = None) sent /\
    (rest = [] \/
     exists post rest' e, rest = post :: rest' /\ send_raises args round post = Some e).
Proof.
  induction batch as [|post batch (sent & rest & Hb & Hok & Hrest)].
  - exists [], []. repeat split; [constructor|now left].
  - destruct (send_raises args round post) as [e|] eqn:Hpost.
    + exists [], (post :: batch). repeat split; [constructor|].
      right. now exists post, batch, e.
    + exists (post :: sent), rest. repeat split.
      * now rewrite Hb.
      * now constructor.
      * assumption.
Qed.

(** Whatever the webhook does, the loop delivers the posts before the first
    failure and leaves the world as these sends left it. *)
Lemma send_loop_progress args round batch w :
  exists sent rest,
    batch = sent ++ rest /\
    Forall (fun post => send_raises args round post = None) sent /\
    (snd (send_loop args round batch w) = None -> rest = []) /\
    files (fst (send_loop args round batch w)) =
      files (fst (send_loop args round sent w)) /\
    outbox (fst (send_loop args round batch w)) =
      outbox (fst (send_loop args round sent w)).
Proof.
  destruct (split_at_first_failure args round batch)
    as (sent & rest & Hb & Hok & [->|(post & rest' & e & -> & Hpost)]);
    exists sent; eexists; (split; [exact Hb|]); (split; [assumption|]).
  - rewrite app_nil_r in Hb. subst sent. auto.
  - destruct (send_loop_fails args round sent post rest' e w Hok Hpost)
      as (Hsnd & Hfiles & Hout).
    rewrite Hb. repeat split; try assumption.
    rewrite Hsnd. discriminate.
Qed.

(** X14. The send loop hands posts to the webhook in the order of the
    batch and never skips one: what it delivers is a front part of the
    batch, appended to the outbox; it is the whole batch when the loop
    returns normally. *)
Theorem send_loop_delivers_front_of_batch
    (args : Args) (round : Round) (batch : list Post) (w : World) :
  exists sent rest,
    batch = sent ++ rest /\
    map for_post (outbox (fst (send_loop args round batch w))) =
      map for_post (outbox w) ++ sent /\
    (snd (send_loop args round batch w) = None -> rest = []).
Proof.
  destruct (send_loop_progress args round batch w)
    as (sent & rest & Hb & Hok & Hnone & _ & Hout).
  exists sent, rest. repeat split; try assumption.
  rewrite Hout. now apply send_loop_delivers.
Qed.

Lemma send_loop_delivers_front_of_batch_witness :
  let round := Sample.round_with (Ok []) (Sample.fails_on "A" HTTPException) in
  let w := Sample.world_with "New post: {post_url}" (Some "CKPT") in
  exists sent rest,
    [Sample.C; Sample.B; Sample.A] = sent ++ rest /\
    map for_post
      (outbox (fst (send_loop Sample.args0 round [Sample.C; Sample.B; Sample.A] w))) =
      map for_post (outbox w) ++ sent /\
    (snd (send_loop Sample.args0 round [Sample.C; Sample.B; Sample.A] w) = None ->
     rest = []).
Proof.
  cbv zeta.
  apply (send_loop_delivers_front_of_batch Sample.args0
           (Sample.round_with (Ok []) (Sample.fails_on "A" HTTPException))
           [Sample.C; Sample.B; Sample.A]
           (Sample.world_with "New post: {post_url}" (Some "CKPT"))).
Defined.

Lemma send_loop_checkpoint args round batch : forall w,
  write_fails round = false ->
  Forall (fun post => send_raises args round post = None) batch ->
  checkpoint args (fst (send_loop args round batch w)) =
    match last batch with
    | Some post => Some (shortcode post)
    | None => checkpoint args w
    end.
Proof.
  intros w Hwrite. revert w.
  induction batch as [|post batch IH]; intros w Hok; [reflexivity|].
  apply Forall_cons in Hok as [Hpost Hok]. cbn [send_loop].
  pose proof (send_to_discord_snd args round post w) as Hsnd.
  destruct (send_to_discord args round post w) as [w1 r]. simpl in Hsnd.
  rewrite Hpost in Hsnd. subst r. rewrite IH by assumption.
  destruct batch as [|next batch].
  - simpl. unfold checkpoint, save_last_shortcode. rewrite Hwrite. simpl.
    apply lookup_insert_eq.
  - change (last (post :: next :: batch)) with (last (next :: batch)).
    destruct (last (next :: batch)) eqn:Hlast; [reflexivity|].
    apply last_None in Hlast. discriminate Hlast.
Qed.

(** X15. With a working disk the saved checkpoint always names the last
    post that was delivered: after the send loop it is the shortcode of the
    last post before the first failing send, and it is left as it was when
    the very first send fails. *)
Theorem checkpoint_names_last_delivered_post
    (args : Args) (round : Round) (batch : list Post) (w : World) :
  write_fails round = false ->
  exists sent rest,
    batch = sent ++ rest /\
    map for_post (outbox (fst (send_loop args round batch w))) =
      map for_post (outbox w) ++ sent /\
    checkpoint args (fst (send_loop args round batch w)) =
      match last sent with
      | Some post => Some (shortcode post)
      | None => checkpoint args w
      end.
Proof.
  intros Hwrite.
  destruct (send_loop_progress args round batch w)
    as (sent & rest & Hb & Hok & _ & Hfiles & Hout).
  exists sent, rest. repeat split; try assumption.
  - rewrite Hout. now apply send_loop_delivers.
  - unfold checkpoint at 1. rewrite Hfiles.
    now apply (send_loop_checkpoint args round sent w).
Qed.

Lemma checkpoint_names_last_delivered_post_witness :
  let round := Sample.round_with (Ok []) (Sample.fails_on "A" HTTPException) in
  let w := Sample.world_with "New post: {post_url}" (Some "CKPT") in
  checkpoint Sample.args0
    (fst (send_loop Sample.args0 round [Sample.C; Sample.B; Sample.A] w)) = Some "B" /\
  exists sent rest,
    [Sample.C; Sample.B; Sample.A] = sent ++ rest /\
    map for_post
      (outbox (fst (send_loop Sample.args0 round [Sample.C; Sample.B; Sample.A] w))) =
      map for_post (outbox w) ++ sent /\
    checkpoint Sample.args0
      (fst (send_loop Sample.args0 round [Sample.C; Sample.B; Sample.A] w)) =
      match last sent with
      | Some post => Some (shortcode post)
      | None => checkpoint Sample.args0 w
      end.
Proof.
  cbv zeta. split; [vm_compute; reflexivity|].
  apply (checkpoint_names_last_delivered_post Sample.args0
           (Sample.round_with (Ok []) (Sample.fails_on "A" HTTPException))
           [Sample.C; Sample.B; Sample.A]
           (Sample.world_with "New post: {post_url}" (Some "CKPT"))).
  reflexivity.
Defined.

Lemma send_loop_frame args round batch : forall w,
  (forall path, path <> get_memory_path (instagram_username args) ->
     files (fst (send_loop args round batch w)) !! path = files w !! path) /\
  (write_fails round = true -> files (fst (send_loop args round batch w)) = files w) /\
  outbox w `prefix_of` outbox (fst (send_loop args round batch w)).
Proof.
  induction batch as [|post batch IH]; intros w.
  - simpl. repeat split; reflexivity || auto.
  - cbn [send_loop].
    pose proof (send_to_discord_files args round post w) as Hfiles.
    assert (Hout : outbox w `prefix_of`
                     outbox (fst (send_to_discord args round post w))).
    { destruct (send_raises args round post) as [e|] eqn:Hpost.
      - now rewrite (send_to_discord_failed args round post w e Hpost).
      - unfold send_to_discord, send_raises in *.
        destruct (truthy (message_content w)), (no_embed args),
          (create_embed_raises round post), (webhook_raises round post);
          simplify_eq; simpl; now apply prefix_app_r. }
    destruct (send_to_discord args round post w) as [w1 [e|]]; simpl in Hfiles, Hout.
    + simpl. rewrite Hfiles. repeat split; auto.
    + destruct (IH (save_last_shortcode round (instagram_username args)
                      (shortcode post) w1)) as (Hother & Hfail & Hgrow).
      repeat split.
      * intros path Hpath. rewrite (Hother path Hpath).
        now rewrite save_last_shortcode_other, Hfiles.
      * intros Hw. rewrite (Hfail Hw). unfold save_last_shortcode.
        now rewrite Hw.
      * rewrite save_last_shortcode_outbox in Hgrow. now transitivity (outbox w1).
Qed.

Lemma check_for_new_posts_frame args round w :
  (forall path, path <> get_memory_path (instagram_username args) ->
     files (fst (check_for_new_posts args round w)) !! path = files w !! path) /\
  (write_fails round = true -> files (fst (check_for_new_posts args round w)) = files w) /\
  outbox w `prefix_of` outbox (fst (check_for_new_posts args round w)).
Proof.
  assert (Hsame :
    (forall path, path <> get_memory_path (instagram_username args) ->
       files w !! path = files w !! path) /\
    (write_fails round = true -> files w = files w) /\
    outbox w `prefix_of` outbox w) by (repeat split; reflexivity || auto).
  unfold check_for_new_posts.
  destruct (get_posts round) as [posts|e].
  - destruct (collect args round w posts) as [[|post batch] [e|]]; simpl;
      try exact Hsame.
    apply send_loop_frame.
  - now destruct (profile_except e).
Qed.




Lemma resume_collects_news clock last_shortcode news ckpt older :
  shortcode ckpt = last_shortcode ->
  naive (date ckpt) ->
  Forall (accepted (cutoff_date clock) last_shortcode) news ->
  (length news <= 50)%nat ->
  fetch_new_posts clock (map Yield news ++ Yield ckpt :: older) last_shortcode []
    default_limit = (news, None).
Proof.
  intros Hck Hnaive Hnews Hlen.
  rewrite fetch_new_posts_unfold. unfold default_limit.
  destruct (Nat.eq_dec (length news) 50) as [Hfull|Hless].
  - destruct (exists_last (l := news)) as (front & post & ->).
    { intros ->. discriminate Hfull. }
    rewrite length_app in Hfull. simpl in Hfull.
    now rewrite walk_accept_full by (assumption || lia).
  - rewrite walk_accept_run by (assumption || lia).
    assert (Hcmp : dt_lt (date ckpt) (cutoff_date clock) =
                     Ok (wall (date ckpt) <? wall (cutoff_date clock))%Z).
    { unfold dt_lt. unfold naive in Hnaive. now rewrite Hnaive. }
    cbn [fetch_loop]. rewrite Hcmp.
    destruct (wall (date ckpt) <? wall (cutoff_date clock))%Z; [reflexivity|].
    apply String.eqb_eq in Hck. now rewrite Hck.
Qed.

(** X17. No post is sent twice: after a cycle that delivered the new posts
    and saved their shortcodes, a later cycle that sees the same feed finds
    the newest of them at the checkpoint, sends nothing and changes nothing. *)
Theorem next_cycle_sends_nothing
    (args : Args) (round next : Round) (w : World) (last_shortcode : string)
    (newest : Post) (news : list Post) (ckpt : Post) (older : list pull) :
  load_last_shortcode round w (instagram_username args) = Some last_shortcode ->
  get_posts round = Ok (map Yield (newest :: news) ++ Yield ckpt :: older) ->
  get_posts next = Ok (map Yield (newest :: news) ++ Yield ckpt :: older) ->
  shortcode ckpt = last_shortcode ->
  naive (date ckpt) ->
  Forall (accepted (cutoff_date (clock round)) last_shortcode) (newest :: news) ->
  (length (newest :: news) <= 50)%nat ->
  Forall (fun post => send_raises args round post = None) (newest :: news) ->
  write_fails round = false ->
  read_fails next = false ->
  naive (date newest) ->
  shortcode newest <> EmptyString ->
  strip (shortcode newest) = shortcode newest ->
  exists w',
    check_for_new_posts args round w = (w', None) /\
    map for_post (outbox w') = map for_post (outbox w) ++ rev (newest :: news) /\
    checkpoint args w' = Some (shortcode newest) /\
    check_for_new_posts args next w' = (w', None).
Proof.
  intros Hload Hget Hnext Hck Hnaive Hnews Hlen Hsend Hwrite Hread
         Hnewest Hne Hstrip.
  pose proof (resume_collects_news (clock round) last_shortcode (newest :: news)
                ckpt older Hck Hnaive Hnews Hlen) as Hfetch.
  assert (Hcollect : collect args round w
                       (map Yield (newest :: news) ++ Yield ckpt :: older)
                     = (newest :: news, None)).
  { now rewrite (collect_resume _ _ _ _ _ Hload). }
  pose proof (check_for_new_posts_sends _ _ _ _ _ Hget Hcollect) as Hcheck.
  assert (Hrev : Forall (fun post => send_raises args round post = None)
                   (rev (newest :: news))) by now apply Forall_rev.
  destruct (send_loop_delivers args round _ w Hrev) as [Hnone Hout].
  pose proof (send_loop_checkpoint args round _ w Hwrite Hrev) as Hpoint.
  rewrite <- Hcheck in Hnone, Hout, Hpoint.
  destruct (check_for_new_posts args round w) as [w' r]. simpl in *. subst r.
  exists w'. repeat split; try assumption.
  - rewrite Hpoint. now rewrite last_snoc.
  - assert (Hload' : load_last_shortcode next w' (instagram_username args)
                     = Some (shortcode newest)).
    { unfold load_last_shortcode. unfold checkpoint in Hpoint.
      rewrite Hpoint, last_snoc, Hread, Hstrip.
      destruct (shortcode newest); [congruence|reflexivity]. }
    unfold check_for_new_posts.
    rewrite Hnext, (collect_resume _ _ _ _ _ Hload'), fetch_new_posts_unfold.
    assert (Hcmp : dt_lt (date newest) (cutoff_date (clock next)) =
                     Ok (wall (date newest) <? wall (cutoff_date (clock next)))%Z).
    { unfold dt_lt. unfold naive in Hnewest. now rewrite Hnewest. }
    cbn [map app fetch_loop]. rewrite Hcmp.
    destruct (wall (date newest) <? wall (cutoff_date (clock next)))%Z;
      [reflexivity|].
    now rewrite String.eqb_refl.
Qed.

Lemma next_cycle_sends_nothing_witness :
  let feed := [Yield Sample.A; Yield Sample.B; Yield Sample.CKPT; Yield Sample.OLD] in
  let round := Sample.round_with (Ok feed) Sample.always_ok in
  let w := Sample.world_with "New post: {post_url}" (Some "CKPT") in
  exists w',
    check_for_new_posts Sample.args0 round w = (w', None) /\
    map for_post (outbox w') = map for_post (outbox w) ++ rev [Sample.A; Sample.B] /\
    checkpoint Sample.args0 w' = Some "A" /\
    check_for_new_posts Sample.args0 round w' = (w', None).
Proof.
  cbv zeta.
  apply (next_cycle_sends_nothing Sample.args0
           (Sample.round_with
              (Ok [Yield Sample.A; Yield Sample.B; Yield Sample.CKPT; Yield Sample.OLD])
              Sample.always_ok)
           (Sample.round_with
              (Ok [Yield Sample.A; Yield Sample.B; Yield Sample.CKPT; Yield Sample.OLD])
              Sample.always_ok)
           (Sample.world_with "New post: {post_url}" (Some "CKPT"))
           "CKPT" Sample.A [Sample.B] Sample.CKPT [Yield Sample.OLD]).
  - vm_compute. reflexivity.
  - reflexivity.
  - reflexivity.
  - reflexivity.
  - reflexivity.
  - repeat constructor; discriminate.
  - simpl. lia.
  - repeat constructor.
  - reflexivity.
  - reflexivity.
  - reflexivity.
  - discriminate.
  - reflexivity.
Defined.

(** ** The polling loop *)




(** X20. The exit status of the process is 0 or 1, and it is 0 only when a
    run-once cycle returned or when the operator interrupted the loop;
    every exception that escapes a cycle gives status 1. *)
Theorem exit_status_zero_only_on_return_or_interrupt
    (args : Args) (rounds : list Round) (w : World) (status : Z) :
  exit_status (snd (main args rounds w)) = Some status ->
  status = 1%Z \/
  status = 0%Z /\
  (once args = true /\ snd (main args rounds w) = Returned \/
   snd (main args rounds w) = main_except KeyboardInterrupt).
Proof.
  revert w. induction rounds as [|round rounds IH]; intros w; [discriminate|].
  cbn [main].
  destruct (check_for_new_posts args round w) as [w1 [e|]].
  - destruct e; simpl; intros [= <-]; auto.
  - destruct (once args) eqn:Honce.
    + simpl. intros [= <-]. auto.
    + intros Hstatus.
      destruct (IH w1 Hstatus) as [H|(H0 & [[Ht _]|H])]; auto; discriminate Ht.
Qed.

Lemma exit_status_zero_only_on_return_or_interrupt_witness :
  let stop := Sample.round_with (Ok [Throw KeyboardInterrupt]) Sample.always_ok in
  let w := Sample.world_with "New post: {post_url}" (Some "CKPT") in
  snd (main Sample.args0 [stop] w) = SystemExit 0 "Interrupted by user." /\
  (0 = 1 \/
   0 = 0 /\
   (once Sample.args0 = true /\ snd (main Sample.args0 [stop] w) = Returned \/
    snd (main Sample.args0 [stop] w) = main_except KeyboardInterrupt))%Z.
Proof.
  cbv zeta. split; [vm_compute; reflexivity|].
  apply (exit_status_zero_only_on_return_or_interrupt Sample.args0
           [Sample.round_with (Ok [Throw KeyboardInterrupt]) Sample.always_ok]
           (Sample.world_with "New post: {post_url}" (Some "CKPT")) 0%Z).
  vm_compute. reflexivity.
Defined.

(** X21. However long the loop runs, the only file it writes is the memory
    file of the monitored profile, and it never takes a delivery back: every
    other path keeps its content and the outbox only grows at its end. *)
Theorem main_writes_only_its_memory_file
    (args : Args) (rounds : list Round) (w : World) (path : string) :
  path <> get_memory_path (instagram_username args) ->
  files (fst (main args rounds w)) !! path = files w !! path /\
  outbox w `prefix_of` outbox (fst (main args rounds w)).
Proof.
  intros Hpath. revert w.
  induction rounds as [|round rounds IH]; intros w; [now split|].
  cbn [main].
  destruct (check_for_new_posts_frame args round w) as (Hother & _ & Hgrow).
  specialize (Hother path Hpath).
  destruct (check_for_new_posts args round w) as [w1 [e|]]; simpl in Hother, Hgrow.
  - now split.
  - destruct (once args); [now split|].
    destruct (IH w1) as [IH1 IH2]. split.
    + now rewrite IH1.
    + now transitivity (outbox w1).
Qed.

Lemma main_writes_only_its_memory_file_witness :
  let feed := [Yield Sample.A; Yield Sample.B; Yield Sample.CKPT] in
  let round := Sample.round_with (Ok feed) Sample.always_ok in
  let w := Sample.world_with "New post: {post_url}" (Some "CKPT") in
  files (fst (main Sample.args0 [round; round] w)) !! ".memory/last_post_other.txt"
    = files w !! ".memory/last_post_other.txt" /\
  outbox w `prefix_of` outbox (fst (main Sample.args0 [round; round] w)).
Proof.
  cbv zeta.
  apply (main_writes_only_its_memory_file Sample.args0
           [Sample.round_with (Ok [Yield Sample.A; Yield Sample.B; Yield Sample.CKPT])
              Sample.always_ok;
            Sample.round_with (Ok [Yield Sample.A; Yield Sample.B; Yield Sample.CKPT])
              Sample.always_ok]
           (Sample.world_with "New post: {post_url}" (Some "CKPT"))
           ".memory/last_post_other.txt").
  discriminate.
Defined.

(** X22. A message template without placeholders is never altered and is
    what every post is sent with: through the whole run
    [args.message_content] keeps its value and each new delivery carries
    exactly that text. *)
Theorem plain_template_is_sent_verbatim
    (args : Args) (rounds : list Round) (w : World) :
  placeholder_free (message_content w) ->
  message_content (fst (main args rounds w)) = message_content w /\
  Forall (fun d => content d = message_content w)
    (new_deliveries (outbox w) (outbox (fst (main args rounds w)))).
Proof.
  intros Hfree. unfold new_deliveries.
  assert (Hgen : forall w', message_content w' = message_content w ->
            message_content (fst (main args rounds w')) = message_content w /\
            exists sent,
              outbox (fst (main args rounds w')) = outbox w' ++ sent /\
              Forall (fun d => content d = message_content w) sent).
  { induction rounds as [|round rounds IH]; intros w' Hw'.
    - simpl. split; [assumption|]. exists []. split; [now rewrite app_nil_r|constructor].
    - cbn [main].
      destruct (check_for_new_posts_fixed args (message_content w) Hfree round w' Hw')
        as (Hm & sent1 & Ho1 & Hs1).
      destruct (check_for_new_posts args round w') as [w1 [e|]]; simpl in Hm, Ho1.
      + simpl. split; [assumption|]. now exists sent1.
      + destruct (once args).
        * simpl. split; [assumption|]. now exists sent1.
        * destruct (IH w1 Hm) as (Hm2 & sent2 & Ho2 & Hs2).
          split; [assumption|]. exists (sent1 ++ sent2). split.
          -- now rewrite Ho2, Ho1, <- app_assoc.
          -- apply Forall_app. now split. }
  destruct (Hgen w eq_refl) as (Hm & sent & Ho & Hs).
  split; [assumption|]. now rewrite Ho, drop_app_length.
Qed.

Lemma plain_template_is_sent_verbatim_witness :
  let feed := [Yield Sample.A; Yield Sample.B; Yield Sample.CKPT] in
  let round := Sample.round_with (Ok feed) Sample.always_ok in
  let w := Sample.world_with "A new post is out!" (Some "CKPT") in
  map content (outbox (fst (main Sample.args0 [round] w)))
    = ["A new post is out!"; "A new post is out!"] /\
  message_content (fst (main Sample.args0 [round] w)) = message_content w /\
  Forall (fun d => content d = message_content w)
    (new_deliveries (outbox w) (outbox (fst (main Sample.args0 [round] w)))).
Proof.
  cbv zeta. split; [vm_compute; reflexivity|].
  apply (plain_template_is_sent_verbatim Sample.args0
           [Sample.round_with (Ok [Yield Sample.A; Yield Sample.B; Yield Sample.CKPT])
              Sample.always_ok]
           (Sample.world_with "A new post is out!" (Some "CKPT"))).
  repeat constructor.
Defined.

(** ** Placeholders in substituted text, and the start-up guard *)

Lemma append_empty_r (s : string) : s +:+ EmptyString = s.
Proof.
  induction s as [|c s IH]; [reflexivity|].
  change (String c (s +:+ EmptyString) = String c s). now rewrite IH.
Qed.

(** X23. The placeholders are substituted one after the other on the same
    string, so text that a substitution brings in is scanned by the later
    ones: with the template [{post_caption}] the message is the caption in
    which [{post_shortcode}] and [{post_image_url}] have been substituted in
    turn. *)
Theorem caption_placeholders_are_expanded (post : Post) (w : World) :
  message_content w = "{post_caption}" ->
  message_content (format_message post w) =
    replace (replace (caption_or_empty post) "{post_shortcode}" (shortcode post))
      "{post_image_url}" (url post).
Proof.
  intros Hw. unfold format_message. cbn [message_content]. rewrite Hw.
  unfold placeholders. cbn [replace_all].
  change (replace "{post_caption}" "{post_url}"
            ("https://www.instagram.com/p/" +:+ shortcode post +:+ "/"))
    with "{post_caption}".
  change (replace "{post_caption}" "{owner_url}"
            ("https://www.instagram.com/" +:+ owner_username post +:+ "/"))
    with "{post_caption}".
  change (replace "{post_caption}" "{owner_name}" (owner_full_name post))
    with "{post_caption}".
  change (replace "{post_caption}" "{owner_username}" (owner_username post))
    with "{post_caption}".
  change (replace "{post_caption}" "{post_caption}" (caption_or_empty post))
    with (caption_or_empty post +:+ EmptyString).
  now rewrite append_empty_r.
Qed.

Lemma caption_placeholders_are_expanded_witness :
  let post := {| shortcode := "A1"; date := Sample.days_ago 1; is_pinned := false;
                 owner_username := "u"; owner_full_name := "U";
                 caption := Some "see {post_shortcode}"; url := "x" |} in
  message_content (format_message post (Sample.world_with "{post_caption}" None))
    = "see A1".
Proof.
  cbv zeta.
  apply (caption_placeholders_are_expanded
           {| shortcode := "A1"; date := Sample.days_ago 1; is_pinned := false;
              owner_username := "u"; owner_full_name := "U";
              caption := Some "see {post_shortcode}"; url := "x" |}
           (Sample.world_with "{post_caption}" None)).
  reflexivity.
Defined.

(** X24. The start-up guard only looks at the template: with embeds turned
    off and the template [{post_caption}] it lets the program start, and a
    post without caption is then sent with an empty message, which is what
    [args.message_content] holds from there on. *)
Theorem startup_guard_allows_empty_message
    (args : Args) (round : Round) (post : Post) (w : World) :
  no_embed args = true ->
  message_content w = "{post_caption}" ->
  caption_or_empty post = EmptyString ->
  send_raises args round post = None ->
  startup_guard args (message_content w) = None /\
  message_content (fst (send_to_discord args round post w)) = EmptyString /\
  outbox (fst (send_to_discord args round post w)) =
    outbox w ++ [mk_delivery post EmptyString false].
Proof.
  intros Hembed Hw Hcaption Hsend.
  assert (Hformat : message_content (format_message post w) = EmptyString).
  { rewrite (caption_placeholders_are_expanded post w Hw), Hcaption. reflexivity. }
  split.
  - unfold startup_guard. rewrite Hw. simpl. now rewrite andb_false_r.
  - unfold send_raises in Hsend. rewrite Hembed in Hsend.
    unfold send_to_discord. rewrite Hw, Hembed, Hsend. cbn [truthy fst].
    unfold deliver. cbn [message_content outbox]. now rewrite Hformat.
Qed.

Lemma startup_guard_allows_empty_message_witness :
  let args := {| instagram_username := "test_user";
                 discord_webhook_url := "https://discord.com/api/webhooks/123/abc";
                 refresh_interval := 3600; catchup := 0;
                 no_embed := true; once := false |} in
  let post := {| shortcode := "A1"; date := Sample.days_ago 1; is_pinned := false;
                 owner_username := "u"; owner_full_name := "U";
                 caption := None; url := "x" |} in
  let round := Sample.round_with (Ok []) Sample.always_ok in
  let w := Sample.world_with "{post_caption}" None in
  startup_guard args (message_content w) = None /\
  message_content (fst (send_to_discord args round post w)) = EmptyString /\
  outbox (fst (send_to_discord args round post w)) =
    outbox w ++ [mk_delivery post EmptyString false].
Proof.
  cbv zeta.
  apply (startup_guard_allows_empty_message
           {| instagram_username := "test_user";
              discord_webhook_url := "https://discord.com/api/webhooks/123/abc";
              refresh_interval := 3600; catchup := 0;
              no_embed := true; once := false |}
           (Sample.round_with (Ok []) Sample.always_ok)
           {| shortcode := "A1"; date := Sample.days_ago 1; is_pinned := false;
              owner_username := "u"; owner_full_name := "U";
              caption := None; url := "x" |}
           (Sample.world_with "{post_caption}" None));
    reflexivity.
Defined.

(** ** Links in the embed description *)

Lemma append_cons_l c (a b : string) : String c a +:+ b = String c (a +:+ b).
Proof. reflexivity. Qed.

Lemma append_nil_l (a : string) : EmptyString +:+ a = a.
Proof. reflexivity. Qed.

Lemma append_assoc_r (a b c : string) : (a +:+ b) +:+ c = a +:+ (b +:+ c).
Proof.
  induction a as [|x a IH]; [reflexivity|].
  rewrite !append_cons_l. now rewrite IH.
Qed.

Section Linking.

Variable sigil : Ascii.ascii.
Variable cls : Ascii.ascii -> bool.
Variable link : string -> string.
Hypothesis cls_word : forall c, cls c = true -> is_word c = true.
Hypothesis cls_not_sigil : forall c, cls c = true -> Ascii.eqb c sigil = false.

Lemma sub_from_no_sigil s :
  has_char sigil s = false -> sub_from sigil cls link 0 s = s.
Proof.
  induction s as [|c s IH]; intros Hs; [reflexivity|].
  cbn [has_char] in Hs. apply orb_false_elim in Hs as [Hc Hs].
  cbn [sub_from]. rewrite Hc. f_equal. now apply IH.
Qed.

Lemma sub_from_skip name : forall rest,
  sub_from sigil cls link (String.length name) (name +:+ rest) =
    sub_from sigil cls link 0 rest.
Proof. induction name as [|c name IH]; intros rest; [reflexivity|]. apply IH. Qed.

Lemma sub_from_copy name : forall rest,
  all_in cls name = true ->
  sub_from sigil cls link 0 (name +:+ rest) =
    name +:+ sub_from sigil cls link 0 rest.
Proof.
  induction name as [|c name IH]; intros rest Hall; [reflexivity|].
  cbn [all_in] in Hall. apply andb_prop in Hall as [Hc Hall].
  rewrite ?append_cons_l, ?append_nil_l. cbn [sub_from]. rewrite (cls_not_sigil c Hc).
  f_equal. now apply IH.
Qed.

Lemma more_then_boundary_run name : forall prev rest,
  is_word prev = true ->
  all_in cls name = true ->
  ends_word rest = true ->
  more_then_boundary cls prev (name +:+ rest) = Some name.
Proof.
  induction name as [|c name IH]; intros prev rest Hprev Hall Hrest.
  - rewrite append_nil_l. destruct rest as [|d rest].
    + simpl. now rewrite Hprev.
    + cbn [ends_word] in Hrest. apply negb_true_iff in Hrest.
      cbn [more_then_boundary word_boundary]. rewrite Hprev, Hrest. simpl.
      destruct (cls d) eqn:Hd; [|reflexivity].
      apply cls_word in Hd. congruence.
  - cbn [all_in] in Hall. apply andb_prop in Hall as [Hc Hall].
    rewrite ?append_cons_l, ?append_nil_l. cbn [more_then_boundary]. rewrite Hc.
    now rewrite (IH c rest (cls_word c Hc) Hall Hrest).
Qed.

Lemma more_then_boundary_blocked name : forall prev c rest,
  is_word prev = true ->
  all_in cls name = true ->
  is_word c = true ->
  cls c = false ->
  more_then_boundary cls prev (name +:+ String c rest) = None.
Proof.
  induction name as [|d name IH]; intros prev c rest Hprev Hall Hword Hc.
  - rewrite ?append_cons_l, ?append_nil_l. cbn [more_then_boundary word_boundary].
    now rewrite Hc, Hprev, Hword.
  - cbn [all_in] in Hall. apply andb_prop in Hall as [Hd Hall].
    rewrite ?append_cons_l, ?append_nil_l. cbn [more_then_boundary word_boundary]. rewrite Hd.
    rewrite (IH d c rest (cls_word d Hd) Hall Hword Hc).
    now rewrite Hprev, (cls_word d Hd).
Qed.

(** A name of the class that ends at a word boundary is replaced by its
    link, and the scan goes on behind it. *)
Lemma sub_from_links name rest :
  name <> EmptyString ->
  all_in cls name = true ->
  ends_word rest = true ->
  sub_from sigil cls link 0 (String sigil (name +:+ rest)) =
    link name +:+ sub_from sigil cls link 0 rest.
Proof.
  intros Hne Hall Hrest. cbn [sub_from]. rewrite Ascii.eqb_refl.
  destruct name as [|c name]; [congruence|].
  cbn [all_in] in Hall. apply andb_prop in Hall as [Hc Hall].
  rewrite ?append_cons_l, ?append_nil_l. cbn [match_name]. rewrite Hc.
  rewrite (more_then_boundary_run name c rest (cls_word c Hc) Hall Hrest).
  f_equal. apply (sub_from_skip (String c name)).
Qed.

(** A name that runs into a word character outside the class is not a
    match: the sigil and the name are copied. *)
Lemma sub_from_blocked name c rest :
  all_in cls name = true ->
  is_word c = true ->
  cls c = false ->
  sub_from sigil cls link 0 (String sigil (name +:+ String c rest)) =
    String sigil (name +:+ sub_from sigil cls link 0 (String c rest)).
Proof.
  intros Hall Hword Hc. cbn [sub_from]. rewrite Ascii.eqb_refl.
  assert (Hno : match_name cls (name +:+ String c rest) = None).
  { destruct name as [|d name].
    - rewrite ?append_cons_l, ?append_nil_l. cbn [match_name]. now rewrite Hc.
    - cbn [all_in] in Hall. apply andb_prop in Hall as [Hd Hall'].
      rewrite ?append_cons_l, ?append_nil_l. cbn [match_name]. rewrite Hd.
      now rewrite (more_then_boundary_blocked name d c rest
                     (cls_word d Hd) Hall' Hword Hc). }
  rewrite Hno. f_equal. now apply sub_from_copy.
Qed.

End Linking.

Lemma is_alnum_word c : is_alnum c = true -> is_word c = true.
Proof. intros H. unfold is_word, is_alnum_or_underscore. now rewrite H. Qed.

Lemma is_alnum_or_underscore_word c :
  is_alnum_or_underscore c = true -> is_word c = true.
Proof. intros H. unfold is_word. now rewrite H. Qed.

Lemma is_alnum_not_hash c : is_alnum c = true -> Ascii.eqb c hash_sign = false.
Proof.
  intros H. destruct (Ascii.eqb_spec c hash_sign) as [->|_]; [|reflexivity].
  vm_compute in H. discriminate H.
Qed.

Lemma is_alnum_or_underscore_not_at c :
  is_alnum_or_underscore c = true -> Ascii.eqb c at_sign = false.
Proof.
  intros H. destruct (Ascii.eqb_spec c at_sign) as [->|_]; [|reflexivity].
  vm_compute in H. discriminate H.
Qed.

(** X25. A caption without [#] and without [@] is the description of the
    embed as it is; a post without caption gets an empty description. *)
Theorem plain_caption_is_description (post : Post) :
  has_char hash_sign (caption_or_empty post) = false ->
  has_char at_sign (caption_or_empty post) = false ->
  description (create_embed post) = caption_or_empty post.
Proof.
  intros Hhash Hat. cbn [create_embed description].
  unfold post_caption, link_mentions, link_hashtags.
  rewrite (sub_from_no_sigil hash_sign is_alnum hashtag_link _ Hhash).
  now apply sub_from_no_sigil.
Qed.

Lemma plain_caption_is_description_witness :
  description (create_embed Sample.A) = "caption of A" /\
  description (create_embed
                 {| shortcode := "A1"; date := Sample.days_ago 1; is_pinned := false;
                    owner_username := "u"; owner_full_name := "U";
                    caption := None; url := "x" |}) = EmptyString.
Proof.
  split.
  - apply (plain_caption_is_description Sample.A); reflexivity.
  - reflexivity.
Defined.

(** X26. A hashtag made of letters and digits that ends at a word boundary
    is turned into a link to its tag page, and the text behind it is
    treated in the same way. *)
Theorem hashtag_becomes_link (tag rest : string) :
  tag <> EmptyString ->
  all_in is_alnum tag = true ->
  ends_word rest = true ->
  link_hashtags (String hash_sign (tag +:+ rest)) =
    "[#" +:+ tag +:+ "](https://www.instagram.com/explore/tags/" +:+ tag +:+ ")"
      +:+ link_hashtags rest.
Proof.
  intros Hne Hall Hrest. unfold link_hashtags.
  rewrite (sub_from_links hash_sign is_alnum hashtag_link
             is_alnum_word tag rest Hne Hall Hrest).
  unfold hashtag_link. now rewrite !append_assoc_r.
Qed.

Lemma hashtag_becomes_link_witness :
  link_hashtags "#sale now" =
    "[#sale](https://www.instagram.com/explore/tags/sale) now".
Proof.
  apply (hashtag_becomes_link "sale" " now"); [discriminate|reflexivity|reflexivity].
Defined.

(** X27. A hashtag that runs into an underscore, or into any other word
    character that is not a letter or digit, is not linked at all: [\b]
    fails behind every front part of it, and the text is copied. *)
Theorem hashtag_with_underscore_is_not_linked (tag rest : string) (c : Ascii.ascii) :
  all_in is_alnum tag = true ->
  is_word c = true ->
  is_alnum c = false ->
  link_hashtags (String hash_sign (tag +:+ String c rest)) =
    String hash_sign (tag +:+ link_hashtags (String c rest)).
Proof.
  intros Hall Hword Hc. unfold link_hashtags.
  now apply (sub_from_blocked hash_sign is_alnum hashtag_link
               is_alnum_word is_alnum_not_hash).
Qed.

Lemma hashtag_with_underscore_is_not_linked_witness :
  link_hashtags "#summer_sale" = "#summer_sale".
Proof.
  apply (hashtag_with_underscore_is_not_linked "summer" "sale"
           (Ascii.ascii_of_nat 95)); reflexivity.
Defined.

(** X28. A mention made of letters, digits and underscores that ends at a
    word boundary is turned into a link to the profile, and the text behind
    it is treated in the same way. *)
Theorem mention_becomes_link (name rest : string) :
  name <> EmptyString ->
  all_in is_alnum_or_underscore name = true ->
  ends_word rest = true ->
  link_mentions (String at_sign (name +:+ rest)) =
    "[@" +:+ name +:+ "](https://www.instagram.com/" +:+ name +:+ ")"
      +:+ link_mentions rest.
Proof.
  intros Hne Hall Hrest. unfold link_mentions.
  rewrite (sub_from_links at_sign is_alnum_or_underscore mention_link
             is_alnum_or_underscore_word name rest Hne Hall Hrest).
  unfold mention_link. now rewrite !append_assoc_r.
Qed.

Lemma mention_becomes_link_witness :
  link_mentions "@shop_1." = "[@shop_1](https://www.instagram.com/shop_1).".
Proof.
  apply (mention_becomes_link "shop_1" "."); [discriminate|reflexivity|reflexivity].
Defined.
